(** * The validator loop of [sturdy/base/validator.py]

    A shallow embedding of [BaseValidatorNeuron]: the score store
    ([update_scores]), the registry resynchronisation ([resync_metagraph]),
    the weight normalisation of [set_weights], the checkpointing pair
    [save_state] / [load_state], the concurrent dispatch
    ([concurrent_forward], [run_concurrent_forward]) and the main loop
    ([run]).

    Conventions of the embedding.
    - A float is a value of [fp]: a finite value, one of the two infinities,
      or NaN.  Finite values are exact rationals, so rounding and overflow of
      the float32 arithmetic are abstracted away (and the two zeros are
      identified); the special values follow IEEE-754, which is what torch
      computes with.
    - A one-dimensional tensor is a [list fp]; the neuron's attributes are the
      fields of the record [validator], which also carries the two pieces of
      the outside world the methods write to: the log and the blob store.
    - A method is a computation in the monad [M]: it receives the neuron,
      and either returns a value or raises a Python exception, in both cases
      together with the neuron as the method left it.
    - What lies outside the file is an input: the registry that a metagraph
      sync reads, the block heights, the replies of the chain and of the
      telemetry, and the bodies of the [forward()] calls, each given as the
      sequence of its steps between two suspensions.  The asyncio event loop
      runs these bodies in cooperative round-robin iterations. *)

From Stdlib Require Import ZArith QArith Qcanon Lia.
From stdpp Require Import base numbers list strings gmap.

Open Scope Qc_scope.

(** ** Floats *)

Inductive fp : Type :=
  | Fin (q : Qc)
  | PInf
  | NInf
  | NaN.

#[global] Instance fp_eq_dec : EqDecision fp.
Proof. solve_decision. Defined.

Definition Qcltb (x y : Qc) : bool := negb (Qle_bool y x).

Definition fzero : fp := Fin 0.
Definition fone : fp := Fin 1.

Definition isnan (x : fp) : bool :=
  match x with NaN => true | _ => false end.

Definition isfinite (x : fp) : bool :=
  match x with Fin _ => true | _ => false end.

Definition isinf (x : fp) : bool :=
  match x with PInf | NInf => true | _ => false end.

Definition fneg (x : fp) : fp :=
  match x with
  | Fin q => Fin (- q)
  | PInf => NInf
  | NInf => PInf
  | NaN => NaN
  end.

Definition fabs (x : fp) : fp :=
  match x with
  | Fin q => Fin (if Qcltb q 0 then - q else q)
  | PInf | NInf => PInf
  | NaN => NaN
  end.

Definition fadd (x y : fp) : fp :=
  match x, y with
  | NaN, _ | _, NaN => NaN
  | Fin a, Fin b => Fin (a + b)
  | PInf, NInf | NInf, PInf => NaN
  | PInf, _ | _, PInf => PInf
  | NInf, _ | _, NInf => NInf
  end.

Definition fsub (x y : fp) : fp := fadd x (fneg y).

(** The product of an infinity and a finite factor [q]: NaN for [q = 0],
    otherwise an infinity with the sign of the product. *)
Definition inf_times (positive : bool) (q : Qc) : fp :=
  if Qcltb 0 q then (if positive then PInf else NInf)
  else if Qcltb q 0 then (if positive then NInf else PInf)
  else NaN.

Definition fmul (x y : fp) : fp :=
  match x, y with
  | NaN, _ | _, NaN => NaN
  | Fin a, Fin b => Fin (a * b)
  | PInf, Fin q | Fin q, PInf => inf_times true q
  | NInf, Fin q | Fin q, NInf => inf_times false q
  | PInf, PInf | NInf, NInf => PInf
  | PInf, NInf | NInf, PInf => NInf
  end.

(** Division; a zero divisor counts as [+0]. *)
Definition fdiv (x y : fp) : fp :=
  match x, y with
  | NaN, _ | _, NaN => NaN
  | Fin a, Fin b =>
      if Qcltb 0 b || Qcltb b 0 then Fin (a / b)
      else if Qcltb 0 a then PInf
      else if Qcltb a 0 then NInf
      else NaN
  | Fin _, (PInf | NInf) => Fin 0
  | PInf, Fin b => if Qcltb b 0 then NInf else PInf
  | NInf, Fin b => if Qcltb b 0 then PInf else NInf
  | (PInf | NInf), (PInf | NInf) => NaN
  end.

Definition fsum (l : list fp) : fp := foldl fadd fzero l.

(** ** The torch operations the neuron uses *)

(** The largest finite float32, [(2 - 2^-23) * 2^127]. *)
Definition FLT_MAX : Qc := Qc_of_Z 340282346638528859811704183484516925440.

(** [torch.nan_to_num(x, 0)]: NaN becomes the given 0; the infinities become
    the largest and the least finite value of the dtype. *)
Definition nan_to_num (x : fp) : fp :=
  match x with
  | NaN => Fin 0
  | PInf => Fin FLT_MAX
  | NInf => Fin (- FLT_MAX)
  | Fin q => Fin q
  end.

(** [torch.zeros(n)] *)
Definition zeros (n : nat) : list fp := replicate n fzero.

(** [self.scatter(0, index, src)]: a copy of [self] with
    [out[index[i]] = src[i]] for every [i]; on a duplicated index the later
    write stays.  torch refuses an index tensor longer than [src] and an
    index outside [self]; [None] stands for that [RuntimeError]. *)
Fixpoint scatter_loop (out : list fp) (index : list nat) (src : list fp)
  : option (list fp) :=
  match index, src with
  | [], _ => Some out
  | _ :: _, [] => None
  | u :: index', r :: src' =>
      if decide (u < length out)%nat
      then scatter_loop (<[u := r]> out) index' src'
      else None
  end.

Definition scatter (self : list fp) (index : list nat) (src : list fp)
  : option (list fp) := scatter_loop self index src.

(** [tensor.clamp_min(eps)]: NaN is propagated. *)
Definition clamp_min (x : fp) (eps : Qc) : fp :=
  match x with
  | NaN => NaN
  | PInf => PInf
  | NInf => Fin eps
  | Fin q => Fin (if Qcltb q eps then eps else q)
  end.

Definition normalize_eps : Qc := Q2Qc (1 # 1000000000000).

(** [torch.nn.functional.normalize(v, p=1, dim=0)] with its default
    [eps = 1e-12]: [v / max(sum |v_i|, eps)]. *)
Definition norm1 (v : list fp) : fp := fsum (fabs <$> v).

Definition normalize (v : list fp) : list fp :=
  let denom := clamp_min (norm1 v) normalize_eps in
  (fun x => fdiv x denom) <$> v.

Close Scope Qc_scope.

(** ** The neuron *)

(** One entry of [metagraph.axons]: the identity registered at a slot and the
    endpoint data needed to reach it.  [metagraph.hotkeys] is the list of the
    identities of the axons and [metagraph.n] their number. *)
Record axon : Type := { ax_hotkey : string; ax_endpoint : string }.

#[global] Instance axon_eq_dec : EqDecision axon.
Proof. solve_decision. Defined.

Definition metagraph_hotkeys (axons : list axon) : list string :=
  ax_hotkey <$> axons.

Definition metagraph_n (axons : list axon) : nat := length axons.

(** The part of [self.config] the methods read. *)
Record config : Type := {
  full_path : string;              (* config.neuron.full_path *)
  moving_average_alpha : fp;       (* config.neuron.moving_average_alpha *)
  num_concurrent_forwards : nat;   (* config.neuron.num_concurrent_forwards *)
  organic : bool;                  (* config.organic *)
  wandb_off : bool                 (* config.wandb.off *)
}.

(** The dictionary written by [torch.save]. *)
Record checkpoint : Type := {
  ck_step : Z;
  ck_scores : list fp;
  ck_hotkeys : list string;
  ck_last_query_block : Z
}.

Inductive level : Type := LDebug | LInfo | LWarning | LError | LSuccess.

#[global] Instance level_eq_dec : EqDecision level.
Proof. solve_decision. Defined.

Record log_entry : Type := { lvl : level; msg : string; data : list fp }.

(** What a [forward()] call does to the neuron between two suspensions:
    nothing (it waits for replies), a call of [update_scores], or an
    exception. *)
Inductive action : Type :=
  | Await
  | UpdateScores (rewards : list fp) (uids : list nat)
  | Raises (kind : string).

#[global] Instance action_eq_dec : EqDecision action.
Proof. solve_decision. Defined.

Definition coroutine : Type := list action.

Record validator : Type := {
  cfg : config;
  step : Z;
  scores : list fp;
  hotkeys : list string;
  last_query_block : Z;
  metagraph : list axon;
  wandb_run_log_count : Z;
  (* outside world *)
  logs : list log_entry;             (* what bt.logging received, oldest first *)
  files : gmap string checkpoint;    (* the blob store, by path *)
  (* bookkeeping of the model *)
  cycles : nat;                      (* calls of concurrent_forward so far *)
  pending : list coroutine           (* sub-cycles left unfinished in the event loop *)
}.

Definition with_step (x : Z) (v : validator) : validator :=
  {| cfg := cfg v; step := x; scores := scores v; hotkeys := hotkeys v;
     last_query_block := last_query_block v; metagraph := metagraph v;
     wandb_run_log_count := wandb_run_log_count v; logs := logs v;
     files := files v; cycles := cycles v; pending := pending v |}.

Definition with_scores (x : list fp) (v : validator) : validator :=
  {| cfg := cfg v; step := step v; scores := x; hotkeys := hotkeys v;
     last_query_block := last_query_block v; metagraph := metagraph v;
     wandb_run_log_count := wandb_run_log_count v; logs := logs v;
     files := files v; cycles := cycles v; pending := pending v |}.

Definition with_hotkeys (x : list string) (v : validator) : validator :=
  {| cfg := cfg v; step := step v; scores := scores v; hotkeys := x;
     last_query_block := last_query_block v; metagraph := metagraph v;
     wandb_run_log_count := wandb_run_log_count v; logs := logs v;
     files := files v; cycles := cycles v; pending := pending v |}.

Definition with_last_query_block (x : Z) (v : validator) : validator :=
  {| cfg := cfg v; step := step v; scores := scores v; hotkeys := hotkeys v;
     last_query_block := x; metagraph := metagraph v;
     wandb_run_log_count := wandb_run_log_count v; logs := logs v;
     files := files v; cycles := cycles v; pending := pending v |}.

Definition with_metagraph (x : list axon) (v : validator) : validator :=
  {| cfg := cfg v; step := step v; scores := scores v; hotkeys := hotkeys v;
     last_query_block := last_query_block v; metagraph := x;
     wandb_run_log_count := wandb_run_log_count v; logs := logs v;
     files := files v; cycles := cycles v; pending := pending v |}.

Definition with_wandb_run_log_count (x : Z) (v : validator) : validator :=
  {| cfg := cfg v; step := step v; scores := scores v; hotkeys := hotkeys v;
     last_query_block := last_query_block v; metagraph := metagraph v;
     wandb_run_log_count := x; logs := logs v;
     files := files v; cycles := cycles v; pending := pending v |}.

Definition with_logs (x : list log_entry) (v : validator) : validator :=
  {| cfg := cfg v; step := step v; scores := scores v; hotkeys := hotkeys v;
     last_query_block := last_query_block v; metagraph := metagraph v;
     wandb_run_log_count := wandb_run_log_count v; logs := x;
     files := files v; cycles := cycles v; pending := pending v |}.

Definition with_files (x : gmap string checkpoint) (v : validator) : validator :=
  {| cfg := cfg v; step := step v; scores := scores v; hotkeys := hotkeys v;
     last_query_block := last_query_block v; metagraph := metagraph v;
     wandb_run_log_count := wandb_run_log_count v; logs := logs v;
     files := x; cycles := cycles v; pending := pending v |}.

Definition with_cycles (x : nat) (v : validator) : validator :=
  {| cfg := cfg v; step := step v; scores := scores v; hotkeys := hotkeys v;
     last_query_block := last_query_block v; metagraph := metagraph v;
     wandb_run_log_count := wandb_run_log_count v; logs := logs v;
     files := files v; cycles := x; pending := pending v |}.

Definition with_pending (x : list coroutine) (v : validator) : validator :=
  {| cfg := cfg v; step := step v; scores := scores v; hotkeys := hotkeys v;
     last_query_block := last_query_block v; metagraph := metagraph v;
     wandb_run_log_count := wandb_run_log_count v; logs := logs v;
     files := files v; cycles := cycles v; pending := x |}.

(** ** Methods as computations *)

(** Python exceptions: the two [BaseException]s the loop meets, and the
    subclasses of [Exception], told apart by their class name. *)
Inductive exn : Type :=
  | KeyboardInterrupt
  | SystemExit
  | Exception (kind : string).

#[global] Instance exn_eq_dec : EqDecision exn.
Proof. solve_decision. Defined.

Inductive outcome (A : Type) : Type :=
  | Ok (a : A) (v : validator)
  | Raise (e : exn) (v : validator).
Arguments Ok {A} a v.
Arguments Raise {A} e v.

Definition M (A : Type) : Type := validator -> outcome A.

Definition final {A} (r : outcome A) : validator :=
  match r with Ok _ v => v | Raise _ v => v end.

Definition ret {A} (a : A) : M A := fun v => Ok a v.

Definition bind {A B} (m : M A) (k : A -> M B) : M B :=
  fun v => match m v with
           | Ok a v' => k a v'
           | Raise e v' => Raise e v'
           end.

Definition raise {A} (e : exn) : M A := fun v => Raise e v.
Definition get : M validator := fun v => Ok v v.
Definition modify (f : validator -> validator) : M unit := fun v => Ok tt (f v).

(** [try: m  except Exception as e: h e]; the two [BaseException]s pass. *)
Definition try_except {A} (m : M A) (h : string -> M A) : M A :=
  fun v => match m v with
           | Raise (Exception kind) v' => h kind v'
           | r => r
           end.

Declare Scope M_scope.
Delimit Scope M_scope with M.
Notation "x <- m ; k" := (bind m (fun x => k))
  (at level 100, m at next level, right associativity) : M_scope.
Notation "m ;; k" := (bind m (fun _ => k))
  (at level 100, right associativity) : M_scope.
Open Scope M_scope.

Definition log (l : level) (s : string) (d : list fp) : M unit :=
  modify (fun v => with_logs (logs v ++ [{| lvl := l; msg := s; data := d |}]) v).

Definition when (b : bool) (m : M unit) : M unit := if b then m else ret tt.

(** ** Score store: [update_scores] *)

(** [a * t] for a Python float [a] and a tensor [t], and [t1 + t2]. *)
Definition smul (a : fp) (t : list fp) : list fp := fmul a <$> t.
Definition tadd (t1 t2 : list fp) : list fp := zip_with fadd t1 t2.

Definition update_scores (rewards : list fp) (uids : list nat) : M unit :=
  rewards <- (if existsb isnan rewards
              then log LWarning "NaN values detected in rewards" rewards ;;
                   ret (nan_to_num <$> rewards)
              else ret rewards) ;
  v <- get ;
  match scatter (scores v) uids rewards with
  | None => raise (Exception "RuntimeError")
  | Some scattered_rewards =>
      log LDebug "Scattered rewards" rewards ;;
      let alpha := moving_average_alpha (cfg v) in
      modify (with_scores (tadd (smul alpha scattered_rewards)
                                (smul (fsub fone alpha) (scores v)))) ;;
      v' <- get ;
      log LDebug "Updated moving avg scores" (scores v')
  end.

(** ** Registry sync: [resync_metagraph] *)

(** What a Python call returns. *)
Inductive pyval : Type := PyNone | PyBool (b : bool).

(** [self.scores[uid] = x] *)
Definition setitem_scores (uid : nat) (x : fp) : M unit :=
  v <- get ;
  if decide (uid < length (scores v))
  then modify (with_scores (<[uid := x]> (scores v)))
  else raise (Exception "IndexError").

(** The loop [for uid, hotkey in enumerate(self.hotkeys)], from [uid] on. *)
Fixpoint zero_replaced (uid : nat) (old : list string) (current : list string)
  : M unit :=
  match old with
  | [] => ret tt
  | hotkey :: rest =>
      match current !! uid with
      | None => raise (Exception "IndexError")
      | Some h =>
          when (bool_decide (hotkey ≠ h)) (setitem_scores uid fzero) ;;
          zero_replaced (S uid) rest current
      end
  end.

(** [synced] is the registry that [self.metagraph.sync] reads from the chain. *)
Definition resync_metagraph (synced : list axon) : M pyval :=
  log LInfo "resync_metagraph()" [] ;;
  v <- get ;
  let previous_metagraph := metagraph v in
  modify (with_metagraph synced) ;;
  if bool_decide (previous_metagraph = synced) then ret PyNone
  else
    log LInfo "Metagraph updated, re-syncing hotkeys, dendrite pool and moving averages" [] ;;
    zero_replaced 0 (hotkeys v) (metagraph_hotkeys synced) ;;
    v1 <- get ;
    when (bool_decide (length (hotkeys v1) < length (metagraph_hotkeys synced)))
      (let new_moving_average := zeros (metagraph_n synced) in
       let min_len := min (length (hotkeys v1)) (length (scores v1)) in
       modify (with_scores (take min_len (scores v1)
                            ++ drop min_len new_moving_average))) ;;
    modify (with_hotkeys (metagraph_hotkeys synced)) ;;
    ret PyNone.

(** ** Weight reconciler: [set_weights]

    [process_weights_for_netuid], [convert_weights_and_uids_for_emit] and
    [subtensor.set_weights] belong to bittensor; of their work only the reply
    of the chain is kept, as the argument [accepted]. *)
Definition raw_weights (v : validator) : list fp := normalize (scores v).

Definition set_weights (accepted : bool) : M unit :=
  v <- get ;
  when (existsb isnan (scores v))
    (log LWarning "Scores contain NaN values." []) ;;
  log LDebug "raw_weights" (raw_weights v) ;;
  if accepted then log LInfo "set_weights on chain successfully!" []
  else log LError "set_weights failed" [].

(** ** State persistence: [save_state] and [load_state] *)

Definition state_path (v : validator) : string :=
  full_path (cfg v) +:+ "/state.pt".

(** [torch.save] writes the blob of a path and [torch.load] reads it.  The
    directory [full_path] is taken to exist, so that [torch.save] returns;
    [torch.load] raises when there is no blob at the path. *)
Definition save_state : M unit :=
  log LInfo "Saving validator state." [] ;;
  v <- get ;
  modify (with_files
    (<[state_path v := {| ck_step := step v; ck_scores := scores v;
                          ck_hotkeys := hotkeys v;
                          ck_last_query_block := last_query_block v |}]>
       (files v))).

Definition load_state : M unit :=
  log LInfo "Loading validator state." [] ;;
  v <- get ;
  match files v !! state_path v with
  | None => raise (Exception "FileNotFoundError")
  | Some state =>
      modify (with_step (ck_step state)) ;;
      modify (with_scores (ck_scores state)) ;;
      modify (with_hotkeys (ck_hotkeys state)) ;;
      modify (with_last_query_block (ck_last_query_block state))
  end.

(** ** Base-class synchronisation *)

Record sync_env : Type := {
  sync_fails : option string;          (* the registration check raises *)
  registry : option (list axon);       (* the registry read, when a resync is due *)
  weights_reply : option bool;         (* the chain's reply, when weights are due *)
  checkpoint_due : bool
}.

(** Modelled from the spec: [BaseNeuron.sync] ([sturdy/base/neuron.py]) is
    not among the sources.  Following sections 2 and 4.5 it runs Registry
    Sync opportunistically, then the Weight Reconciler, then checkpoints on
    demand; which of the three are due, and whether the call fails before
    them, is decided outside this file and given by the [sync_env]. *)
Definition sync (e : sync_env) : M unit :=
  match sync_fails e with
  | Some kind => raise (Exception kind)
  | None =>
      match registry e with
      | Some synced => resync_metagraph synced ;; ret tt
      | None => ret tt
      end ;;
      match weights_reply e with
      | Some accepted => set_weights accepted
      | None => ret tt
      end ;;
      when (checkpoint_due e) save_state
  end.

(** ** Probe dispatcher: [concurrent_forward]

    The asyncio event loop is cooperative: a task runs until it suspends,
    then the next ready task runs.  One element of a [coroutine] is what a
    [forward()] call does between two suspensions, and in one iteration of
    the loop every unfinished task runs one such piece, in creation order. *)

Definition quantum (a : action) : M unit :=
  match a with
  | Await => ret tt
  | UpdateScores rewards uids => update_scores rewards uids
  | Raises kind => raise (Exception kind)
  end.

Definition first_exn (e1 e2 : option exn) : option exn :=
  match e1 with Some _ => e1 | None => e2 end.

(** One iteration: the tasks still unfinished after it, the first exception
    a task finished with, and the neuron. *)
Fixpoint iteration (tasks : list coroutine) (v : validator)
  : list coroutine * option exn * validator :=
  match tasks with
  | [] => ([], None, v)
  | [] :: rest => iteration rest v
  | (a :: body) :: rest =>
      match quantum a v with
      | Ok _ v1 =>
          let '(ts, e, v2) := iteration rest v1 in
          (match body with [] => ts | _ => body :: ts end, e, v2)
      | Raise e1 v1 =>
          let '(ts, e, v2) := iteration rest v1 in
          (ts, first_exn (Some e1) e, v2)
      end
  end.

(** [await asyncio.gather] on the coroutines, without [return_exceptions]: the
    loop iterates until every task is finished or one has raised; the first
    exception is the result of the gather, and the other tasks are not
    cancelled.  [fuel] bounds the iterations. *)
Fixpoint gather_loop (fuel : nat) (tasks : list coroutine) (v : validator)
  : list coroutine * option exn * validator :=
  match fuel, tasks with
  | _, [] => ([], None, v)
  | O, _ => (tasks, None, v)
  | S fuel', _ =>
      let '(ts, e, v1) := iteration tasks v in
      match e with
      | Some _ => (ts, e, v1)
      | None => gather_loop fuel' ts v1
      end
  end.

(** Iterations in which the remaining tasks go on, whatever they raise. *)
Fixpoint drain (n : nat) (tasks : list coroutine) (v : validator)
  : list coroutine * validator :=
  match n with
  | O => (tasks, v)
  | S n' => let '(ts, _, v1) := iteration tasks v in drain n' ts v1
  end.

Definition longest (tasks : list coroutine) : nat :=
  foldr (fun t n => max (length t) n) 0 tasks.

(** The exception of a task reaches the awaiting coroutine two iterations
    after the task raised it: the done-callback of the gather runs in the
    next iteration, the wake-up of the awaiting task in the one after. *)
Definition wakeup_latency : nat := 2.

(** [forward i] is the body of the [i]-th [self.forward()] call.  When the
    gather ends with an exception, the sub-cycles still unfinished are noted
    in [pending]; the model does not resume them in a later dispatch. *)
Definition concurrent_forward (forward : nat -> coroutine) : M unit :=
  fun v =>
    let coroutines := forward <$> seq 0 (num_concurrent_forwards (cfg v)) in
    let v0 := with_cycles (S (cycles v)) v in
    let '(ts, e, v1) := gather_loop (S (longest coroutines)) coroutines v0 in
    match e with
    | None => Ok tt v1
    | Some err =>
        let '(ts', v2) := drain wakeup_latency ts v1 in
        Raise err (with_pending (pending v2 ++ ts') v2)
    end.

Definition run_concurrent_forward (forward : nat -> coroutine) : M unit :=
  try_except (concurrent_forward forward)
    (fun kind => log LError "Error in concurrent_forward" []).

(** [self.loop.run_until_complete(m)]: once [m] is finished the stop callback
    runs in the next iteration, after which the loop is stopped; tasks still
    unfinished then stay suspended in it. *)
Definition run_until_complete {A} (m : M A) : M A :=
  fun v =>
    let r := m v in
    let '(ts, v1) := drain 1 (pending (final r)) (with_pending [] (final r)) in
    let v2 := with_pending (pending v1 ++ ts) v1 in
    match r with
    | Ok a _ => Ok a v2
    | Raise e _ => Raise e v2
    end.

(** ** Scheduler: [run] *)

(** What an external call gives back. *)
Inductive reply (A : Type) : Type :=
  | Value (a : A)
  | Throws (e : exn).
Arguments Value {A} a.
Arguments Throws {A} e.

Definition call {A} (r : reply A) : M A :=
  match r with Value a => ret a | Throws e => raise e end.

(** What the outside world does during one pass of the loop. *)
Record pass_env : Type := {
  subtensor_block : reply Z;         (* self.subtensor.block *)
  forward : nat -> coroutine;        (* the forward() calls of the pass *)
  sync_of : sync_env;                (* self.sync() *)
  wandb_log : reply unit;            (* self.wandb.log(...) *)
  should_reinit : reply bool;        (* should_reinit_wandb(self) *)
  reinit : reply unit;               (* reinit_wandb(self) *)
  should_exit : bool                 (* self.should_exit when it is read *)
}.

Inductive control : Type := Continue | Break.

(** How [run] ended: it returned, or the given passes were all executed and
    the loop is still going. *)
Inductive run_end : Type := Returned | StillRunning.

Section Run.

(** [sturdy.constants.QUERY_RATE] *)
Variable QUERY_RATE : Z.

Definition log_to_wandb (e : pass_env) : M unit :=
  log LDebug "Logging info to wandb" [] ;;
  try_except
    (v <- get ;
     call (wandb_log e) ;;
     modify (with_wandb_run_log_count (wandb_run_log_count v + 1)) ;;
     log LInfo "wandb log count" [])
    (fun kind =>
       log LError "Failed to log info into wandb!" [] ;;
       log LError kind []) ;;
  due <- call (should_reinit e) ;
  when due
    (try_except
       (call (reinit e) ;; modify (with_wandb_run_log_count 0))
       (fun kind =>
          log LError "Failed reinit wandb run!" [] ;;
          log LError kind [])).

(** The two ways [run] waits for a probe cycle.  With [config.organic] the
    dispatch goes to a loop running in another thread
    ([run_coroutine_threadsafe] and [future.result()]): its result is that of
    [concurrent_forward], and what the sub-cycles left in that loop do
    afterwards is outside the model. *)
Definition dispatch (e : pass_env) : M unit :=
  v <- get ;
  if organic (cfg v)
  then concurrent_forward (forward e)
  else run_until_complete (concurrent_forward (forward e)).

(** The body of [while True]. *)
Definition run_pass (e : pass_env) : M control :=
  current_block <- call (subtensor_block e) ;
  v <- get ;
  when (bool_decide (current_block - last_query_block v > QUERY_RATE)%Z)
    (log LInfo "step block" [] ;;
     dispatch e ;;
     modify (with_last_query_block current_block) ;;
     sync (sync_of e) ;;
     when (negb (wandb_off (cfg v))) (log_to_wandb e)) ;;
  if should_exit e then ret Break
  else
    v' <- get ;
    modify (with_step (step v' + 1)) ;;
    ret Continue.

Fixpoint while_true (passes : list pass_env) : M run_end :=
  match passes with
  | [] => ret StillRunning
  | e :: rest =>
      c <- run_pass e ;
      match c with
      | Break => ret Returned
      | Continue => while_true rest
      end
  end.

(** [run]: the first [sync], then the loop inside its [try]. *)
Definition run (first : sync_env) (passes : list pass_env) : M run_end :=
  sync first ;;
  log LInfo "Validator starting" [] ;;
  fun v =>
    match while_true passes v with
    | Raise KeyboardInterrupt v' =>
        (log LSuccess "Validator killed by keyboard interrupt." [] ;;
         raise SystemExit) v'
    | Raise (Exception kind) v' =>
        (log LError "Error during validation" [] ;;
         log LDebug kind [] ;;
         ret Returned) v'
    | r => r
    end.

End Run.

(** ** Notions used in the statements *)

(** The rewards that [update_scores] merges. *)
Definition sanitize (rewards : list fp) : list fp :=
  if existsb isnan rewards then nan_to_num <$> rewards else rewards.

(** The moving average of one slot. *)
Definition ema (alpha r old : fp) : fp :=
  fadd (fmul alpha r) (fmul (fsub fone alpha) old).

Definition finite (x : fp) : Prop := isfinite x = true.

Definition nonneg (x : fp) : Prop := ∃ q : Qc, x = Fin q ∧ (0 ≤ q)%Qc.

(** A warning with the text [s] is in the log. *)
Definition warned (s : string) (v : validator) : Prop :=
  ∃ d, {| lvl := LWarning; msg := s; data := d |} ∈ logs v.

(** An observation of the neuron that only the loop itself and
    [concurrent_forward] can change: no setter of another attribute does. *)
Definition inert {X} (f : validator → X) : Prop :=
  (∀ x v, f (with_step x v) = f v) ∧
  (∀ x v, f (with_scores x v) = f v) ∧
  (∀ x v, f (with_hotkeys x v) = f v) ∧
  (∀ x v, f (with_metagraph x v) = f v) ∧
  (∀ x v, f (with_wandb_run_log_count x v) = f v) ∧
  (∀ x v, f (with_logs x v) = f v) ∧
  (∀ x v, f (with_files x v) = f v) ∧
  (∀ x v, f (with_pending x v) = f v).

Definition keeps {A X} (f : validator → X) (m : M A) : Prop :=
  ∀ v, f (final (m v)) = f v.

(** ** Concrete neurons and environments *)

Definition ratio (n : Z) (d : positive) : fp := Fin (Q2Qc (n # d)).

Definition axon_of (h : string) : axon :=
  {| ax_hotkey := h; ax_endpoint := "10.0.0.1:8091" |}.

Definition config_with (alpha : fp) : config :=
  {| full_path := "/var/validator"; moving_average_alpha := alpha;
     num_concurrent_forwards := 2; organic := false; wandb_off := true |}.

Definition config0 : config := config_with (ratio 1 5).

(** A neuron at its start: step 0, nothing logged, nothing stored. *)
Definition neuron (c : config) (hk : list string) (sc : list fp)
    (m : list axon) : validator :=
  {| cfg := c; step := 0; scores := sc; hotkeys := hk; last_query_block := 0;
     metagraph := m; wandb_run_log_count := 0; logs := []; files := ∅;
     cycles := 0; pending := [] |}.

Definition three_slots : validator :=
  neuron config0 ["A"; "B"; "C"] (zeros 3) (axon_of <$> ["A"; "B"; "C"]).

(** A neuron started on the registry [current] that finds a checkpoint of an
    earlier run, and the same neuron after [load_state]. *)
Definition started_on (current : list string) (saved : checkpoint)
  : validator :=
  with_files {[ "/var/validator/state.pt" := saved ]}
    (neuron config0 current (zeros (length current)) (axon_of <$> current)).

Definition reloaded (current : list string) (saved : checkpoint)
  : validator := final (load_state (started_on current saved)).

(** The checkpoint has B at slot 1, where the registry now has C. *)
Definition stale_replaced : validator :=
  reloaded ["A"; "C"]
    {| ck_step := 5; ck_scores := [ratio 1 2; ratio 1 2];
       ck_hotkeys := ["A"; "B"]; ck_last_query_block := 40 |}.

(** The checkpoint has one slot, the registry now two. *)
Definition stale_short : validator :=
  reloaded ["A"; "B"]
    {| ck_step := 5; ck_scores := [ratio 1 2];
       ck_hotkeys := ["A"]; ck_last_query_block := 40 |}.

Definition settled : validator :=
  neuron config0 ["A"; "B"] [ratio 1 2; ratio 1 4] (axon_of <$> ["A"; "B"]).

(** [settled] later in its run, and a neuron started afresh on the blob
    store that [save_state] left. *)
Definition checkpointed : validator :=
  with_last_query_block 42 (with_step 7 settled).

Definition restarted : validator :=
  with_files (files (final (save_state checkpointed))) three_slots.

(** The registry of [settled] after the axon of A moved to another endpoint. *)
Definition moved_endpoint : list axon :=
  [{| ax_hotkey := "A"; ax_endpoint := "10.0.0.9:8091" |}; axon_of "B"].

(** Slot 0 has been replaced on the chain, and slot 2 is new. *)
Definition replaced_and_grown : list axon := axon_of <$> ["D"; "B"; "C"].

(** [alpha = 1] and a score that an earlier infinite reward left infinite. *)
Definition saturated : validator :=
  neuron (config_with fone) ["A"; "B"] [PInf; fzero] (axon_of <$> ["A"; "B"]).

Definition signed_scores : validator :=
  neuron config0 ["A"; "B"] [ratio (-1) 1; ratio 1 1] (axon_of <$> ["A"; "B"]).

Definition tiny_scores : validator :=
  neuron config0 ["A"] [ratio 1 10000000000000] (axon_of <$> ["A"]).

(** The scores of the specification's scenario after its replacement. *)
Definition one_trusted : validator :=
  neuron config0 ["A"; "D"; "C"] [ratio 1 5; fzero; fzero]
    (axon_of <$> ["A"; "D"; "C"]).

Definition nan_scores : validator :=
  neuron config0 ["A"; "B"] [NaN; fone] (axon_of <$> ["A"; "B"]).

Definition quiet_sync : sync_env :=
  {| sync_fails := None; registry := None; weights_reply := None;
     checkpoint_due := false |}.

Definition idle_forward : nat → coroutine := λ _, [Await].

Definition pass_at (b : reply Z) (fw : nat → coroutine) : pass_env :=
  {| subtensor_block := b; forward := fw; sync_of := quiet_sync;
     wandb_log := Value tt; should_reinit := Value false; reinit := Value tt;
     should_exit := false |}.

(** Three passes; reading the block height fails in the first, the other two
    are due for a probe. *)
Definition failing_then_due : list pass_env :=
  [pass_at (Throws (Exception "ConnectionError")) idle_forward;
   pass_at (Value 11%Z) idle_forward;
   pass_at (Value 20%Z) idle_forward].

(** A pass due for a probe in which the telemetry call fails. *)
Definition wandb_fails : pass_env :=
  {| subtensor_block := Value 10%Z; forward := idle_forward;
     sync_of := quiet_sync; wandb_log := Throws (Exception "CommError");
     should_reinit := Value false; reinit := Value tt; should_exit := false |}.

Definition with_telemetry : validator :=
  neuron {| full_path := "/var/validator"; moving_average_alpha := ratio 1 5;
            num_concurrent_forwards := 2; organic := false;
            wandb_off := false |}
    ["A"; "B"; "C"] (zeros 3) (axon_of <$> ["A"; "B"; "C"]).

(** Two sub-cycles: the first fails at once, the second applies a batch for
    slot 1 after five suspensions. *)
Definition one_fails : nat → coroutine := λ i,
  match i with
  | 0 => [Raises "TimeoutError"]
  | _ => [Await; Await; Await; Await; Await; UpdateScores [fone] [1]]
  end.

(** The same second sub-cycle beside a first one that succeeds. *)
Definition none_fails : nat → coroutine := λ i,
  match i with
  | 0 => [Await; UpdateScores [fone] [0]]
  | _ => [Await; Await; Await; Await; Await; UpdateScores [fone] [1]]
  end.

(** Closed decidable statements are settled by evaluation. *)
Ltac by_evaluation := apply (bool_decide_unpack _); vm_compute; exact I.

(** ** Construction and lifecycle *)

(** [serve_axon]; [create] is what [bt.axon(...)] gives back and [serve]
    what [self.subtensor.serve_axon(...)] does.  The attribute [self.axon]
    itself is not part of the record. *)
Definition serve_axon (create serve : reply unit) : M unit :=
  log LInfo "serving ip to chain..." [] ;;
  try_except
    (call create ;;
     try_except
       (call serve ;; log LInfo "Running validator" [])
       (fun kind => log LError "Failed to serve Axon with exception" []))
    (fun kind =>
       log LError "Failed to create Axon initialize with exception" []).

(** What the outside world gives to [__init__]. *)
Record init_env : Type := {
  wandb_init : reply unit;            (* init_wandb_validator(self) *)
  web3_provider_url : option string;  (* os.environ.get("WEB3_PROVIDER_URL") *)
  init_sync : sync_env;               (* self.sync() *)
  axon_off : bool;                    (* config.neuron.axon_off *)
  axon_create : reply unit;
  axon_serve : reply unit
}.

(** From the neuron as [BaseNeuron.__init__] left it (config,
    metagraph and step are set there).  The constructors of the web3 client
    and of the dendrite are taken to return; the runner flags set in the last
    lines are those of [new_runner] below. *)
Definition __init__ (e : init_env) : M unit :=
  modify (with_last_query_block 0) ;;
  modify (with_wandb_run_log_count 0) ;;
  v <- get ;
  when (negb (wandb_off (cfg v)))
    (log LDebug "loading wandb" [] ;; call (wandb_init e)) ;;
  modify (with_hotkeys (metagraph_hotkeys (metagraph v))) ;;
  match web3_provider_url e with
  | None => raise (Exception "ValueError")
  | Some _ =>
      log LInfo "Dendrite" [] ;;
      log LInfo "Building validation weights." [] ;;
      modify (with_scores (zeros (metagraph_n (metagraph v)))) ;;
      sync (init_sync e) ;;
      if axon_off e
      then log LWarning "axon off, not serving ip to chain." []
      else serve_axon (axon_create e) (axon_serve e)
  end.

(** The attributes of the background runner, with what happened to the
    thread and to the wandb run. *)
Record runner : Type := {
  is_running : bool;        (* self.is_running *)
  exit_flag : bool;         (* self.should_exit *)
  started : nat;            (* threads started with target self.run *)
  joined : nat;             (* calls of self.thread.join(5) *)
  has_wandb : bool;         (* self.wandb is not None *)
  finished : nat;           (* calls of self.wandb.finish() *)
  runner_log : list (level * string)
}.

(** The last lines of [__init__]. *)
Definition new_runner (wandb : bool) : runner :=
  {| is_running := false; exit_flag := false; started := 0; joined := 0;
     has_wandb := wandb; finished := 0; runner_log := [] |}.

Definition run_in_background_thread (r : runner) : runner :=
  if is_running r then r
  else
    {| is_running := true; exit_flag := false; started := S (started r);
       joined := joined r; has_wandb := has_wandb r; finished := finished r;
       runner_log := runner_log r
         ++ [(LDebug, "Starting validator in background thread.");
             (LDebug, "Started")] |}.

Definition stop_run_thread (r : runner) : runner :=
  if is_running r then
    {| is_running := false; exit_flag := true; started := started r;
       joined := S (joined r); has_wandb := has_wandb r;
       finished := finished r;
       runner_log := runner_log r
         ++ [(LDebug, "Stopping validator in background thread.");
             (LDebug, "Stopped")] |}
  else r.

Definition __enter__ (r : runner) : runner := run_in_background_thread r.

(** As [stop_run_thread], and the wandb run is closed. *)
Definition __exit__ (r : runner) : runner :=
  if is_running r then
    {| is_running := false; exit_flag := true; started := started r;
       joined := S (joined r); has_wandb := has_wandb r;
       finished := if has_wandb r then S (finished r) else finished r;
       runner_log := runner_log r
         ++ [(LDebug, "Stopping validator in background thread.");
             (LDebug, "Stopped")]
         ++ (if has_wandb r
             then [(LDebug, "closing wandb connection");
                   (LDebug, "closed wandb connection")]
             else [])
         ++ [(LSuccess, "Validator killed")] |}
  else r.

(** ** Further notions used in the statements *)

(** The stored snapshot is the hotkey list of the metagraph held, and there
    is one score per slot. *)
Definition well_formed (v : validator) : Prop :=
  hotkeys v = metagraph_hotkeys (metagraph v) ∧
  length (scores v) = length (hotkeys v).

(** A finite value between [lo] and [hi]. *)
Definition within (lo hi : Qc) (x : fp) : Prop :=
  ∃ q : Qc, x = Fin q ∧ (lo ≤ q ≤ hi)%Qc.

(** A step of a sub-cycle that cannot fail on a score vector of [n] slots. *)
Definition harmless (n : nat) (a : action) : Prop :=
  match a with
  | Await => True
  | UpdateScores rewards uids =>
      (length uids ≤ length rewards)%nat ∧ Forall (λ u, (u < n)%nat) uids
  | Raises _ => False
  end.

(** The [update_scores] calls that a sub-cycle makes, and those of a list of
    sub-cycles. *)
Fixpoint batches_of (t : coroutine) : nat :=
  match t with
  | [] => 0
  | UpdateScores _ _ :: t' => S (batches_of t')
  | _ :: t' => batches_of t'
  end.

Definition batches (tasks : list coroutine) : nat :=
  foldr (λ t n, batches_of t + n)%nat 0%nat tasks.

(** The batches applied so far: the last statement of [update_scores] writes
    one line to the log, and nothing else writes that line. *)
Definition applied (v : validator) : nat :=
  length
    (filter (λ en, msg en = "Updated moving avg scores"%string) (logs v)).

(** Absolute value of a rational, as [fabs] computes it. *)
Definition Qcabs (q : Qc) : Qc := if Qcltb q 0 then (- q)%Qc else q.

(** A neuron with another directory on the blob store that [save_state] of
    [checkpointed] left. *)
Definition elsewhere : validator :=
  with_files (files (final (save_state checkpointed)))
    (neuron {| full_path := "/var/other"; moving_average_alpha := ratio 1 5;
               num_concurrent_forwards := 2; organic := false;
               wandb_off := true |}
       ["A"; "B"] (zeros 2) (axon_of <$> ["A"; "B"])).

(** An external call that returns or raises an [Exception]: what
    [except Exception] contains. *)
Definition catchable {A} (r : reply A) : Prop :=
  match r with
  | Value _ | Throws (Exception _) => True
  | Throws _ => False
  end.

Definition returns {A} (r : reply A) : bool :=
  match r with Value _ => true | Throws _ => false end.

(** What a probe cycle leaves alone in the neuron. *)
Definition same_registry (v v' : validator) : Prop :=
  length (scores v') = length (scores v) ∧ hotkeys v' = hotkeys v ∧
  metagraph v' = metagraph v ∧ step v' = step v ∧
  last_query_block v' = last_query_block v ∧ files v' = files v ∧
  wandb_run_log_count v' = wandb_run_log_count v ∧ cfg v' = cfg v.

(** The calls that drive the background runner, and a sequence of them. *)
Inductive lifecycle : Type := Start | Stop | Enter | Exit.

Definition lifecycle_call (r : runner) (c : lifecycle) : runner :=
  match c with
  | Start => run_in_background_thread r
  | Stop => stop_run_thread r
  | Enter => __enter__ r
  | Exit => __exit__ r
  end.

(** Every thread started has been joined, but the one running; the exit flag
    is down while it runs; the wandb run is closed at most once per join. *)
Definition balanced (r : runner) : Prop :=
  started r = joined r + (if is_running r then 1 else 0) ∧
  (is_running r = true → exit_flag r = false) ∧
  finished r ≤ joined r.

(** A pass due for a probe in which the rollover check fails. *)
Definition rollover_check_fails : pass_env :=
  {| subtensor_block := Value 10%Z; forward := idle_forward;
     sync_of := quiet_sync; wandb_log := Value tt;
     should_reinit := Throws (Exception "CommError"); reinit := Value tt;
     should_exit := false |}.

(** The neuron as [BaseNeuron.__init__] leaves it on a registry of two, and
    two outside worlds for [__init__]: one without [WEB3_PROVIDER_URL], one
    in which the first sync reads a grown registry and serving fails. *)
Definition constructed : validator :=
  neuron config0 [] [] (axon_of <$> ["A"; "B"]).

Definition no_provider : init_env :=
  {| wandb_init := Value tt; web3_provider_url := None;
     init_sync := quiet_sync; axon_off := false;
     axon_create := Value tt; axon_serve := Value tt |}.

Definition first_start : init_env :=
  {| wandb_init := Value tt;
     web3_provider_url := Some "http://127.0.0.1:8545";
     init_sync := {| sync_fails := None;
                     registry := Some (axon_of <$> ["A"; "B"; "C"]);
                     weights_reply := Some true; checkpoint_due := true |};
     axon_off := false;
     axon_create := Value tt;
     axon_serve := Throws (Exception "ConnectionError") |}.

(** What the first sync and the pass's sync leave of the counters, and of
    any property of the scores that 0 has. *)
Definition sync_keeps (a b : validator) : Prop :=
  last_query_block b = last_query_block a ∧
  wandb_run_log_count b = wandb_run_log_count a ∧
  step b = step a ∧
  ∀ P : fp → Prop, P fzero → Forall P (scores a) → Forall P (scores b).


(** * Properties *)

(** ** Floats *)
Lemma finite_Fin x : finite x ↔ ∃ q, x = Fin q.
Proof.
  unfold finite. split.
  - destruct x; try discriminate. by eexists.
  - by intros [q ->].
Qed.

Lemma finite_ema a r old : finite a → finite r → finite old → finite (ema a r old).
Proof.
  rewrite !finite_Fin. intros [qa ->] [qr ->] [qo ->]. by eexists.
Qed.

Lemma finite_nan_to_num x : finite (nan_to_num x).
Proof. by destruct x. Qed.

(** ** [scatter] *)

Lemma scatter_loop_length index : ∀ out src s,
  scatter_loop out index src = Some s → length s = length out.
Proof.
  induction index as [|u index IH]; intros out src s; simpl.
  - by intros [= ->].
  - destruct src as [|r src]; [done|]. destruct (decide _); [|done].
    intros H. apply IH in H. by rewrite length_insert in H.
Qed.

Lemma scatter_loop_is_Some index : ∀ out src,
  length index ≤ length src → Forall (λ u, u < length out) index →
  is_Some (scatter_loop out index src).
Proof.
  induction index as [|u index IH]; intros out src Hlen Hin; simpl.
  - by eexists.
  - destruct src as [|r src]; simpl in Hlen; [lia|].
    inversion Hin; subst. destruct (decide _); [|lia].
    apply IH; [lia|]. by rewrite length_insert.
Qed.

Lemma scatter_loop_absent index : ∀ out src s k,
  scatter_loop out index src = Some s → k ∉ index → s !! k = out !! k.
Proof.
  induction index as [|u index IH]; intros out src s k; simpl.
  - by intros [= ->].
  - destruct src as [|r src]; [done|]. destruct (decide _); [|done].
    intros H Hk. apply not_elem_of_cons in Hk as [Hne Hk].
    rewrite (IH _ _ _ _ H Hk). by apply list_lookup_insert_ne.
Qed.

Lemma scatter_loop_present index : ∀ out src s i u r,
  scatter_loop out index src = Some s → NoDup index →
  index !! i = Some u → src !! i = Some r → s !! u = Some r.
Proof.
  induction index as [|u0 index IH]; intros out src s i u r; simpl.
  - done.
  - destruct src as [|r0 src]; [done|]. destruct (decide _); [|done].
    intros H Hnd Hi Hr. apply NoDup_cons in Hnd as [Hnotin Hnd].
    destruct i as [|i]; simpl in *.
    + injection Hi as ->. injection Hr as ->.
      rewrite (scatter_loop_absent _ _ _ _ _ H Hnotin).
      by apply list_lookup_insert_eq.
    + eapply IH; eauto.
Qed.

Lemma scatter_loop_Forall (P : fp → Prop) index : ∀ out src s,
  Forall P out → Forall P src →
  scatter_loop out index src = Some s → Forall P s.
Proof.
  induction index as [|u index IH]; intros out src s Hout Hsrc; simpl.
  - by intros [= <-].
  - destruct src as [|r src]; [done|]. destruct (decide _); [|done].
    inversion Hsrc; subst. apply IH; [|done].
    by apply Forall_insert.
Qed.

(** ** Score store *)

Lemma lookup_ema_tensor a s o k :
  tadd (smul a s) (smul (fsub fone a) o) !! k =
    match s !! k, o !! k with
    | Some x, Some y => Some (ema a x y)
    | _, _ => None
    end.
Proof.
  unfold tadd, smul. rewrite lookup_zip_with, !list_lookup_fmap.
  destruct (s !! k), (o !! k); done.
Qed.

Lemma length_ema_tensor a s o :
  length s = length o → length (tadd (smul a s) (smul (fsub fone a) o)) = length o.
Proof.
  intros H. unfold tadd, smul. rewrite length_zip_with, !length_fmap. lia.
Qed.

Lemma sanitize_no_nan rewards :
  existsb isnan rewards = false → sanitize rewards = rewards.
Proof. unfold sanitize. by intros ->. Qed.

Lemma existsb_isnan_false rewards :
  Forall finite rewards → existsb isnan rewards = false.
Proof.
  induction 1 as [|x l Hx _ IH]; [done|]. simpl. rewrite IH.
  apply finite_Fin in Hx as [q ->]. done.
Qed.

Lemma sanitize_lookup_nan rewards i :
  rewards !! i = Some NaN → sanitize rewards !! i = Some fzero.
Proof.
  intros H. unfold sanitize.
  assert (existsb isnan rewards = true) as ->.
  { apply existsb_exists. exists NaN. split; [|done].
    apply list_elem_of_In. by eapply list_elem_of_lookup_2. }
  by rewrite list_lookup_fmap, H.
Qed.

Lemma sanitize_finite rewards :
  Forall (λ x, isinf x = false) rewards → Forall finite (sanitize rewards).
Proof.
  intros H. unfold sanitize. destruct (existsb isnan rewards) eqn:E.
  - apply Forall_fmap, Forall_true. intros x. apply finite_nan_to_num.
  - apply Forall_forall. intros x Hx.
    assert (isnan x = false) as Hn.
    { destruct (isnan x) eqn:Ex; [|done]. rewrite <- E. symmetry.
      apply existsb_exists. exists x. by rewrite <- list_elem_of_In. }
    pose proof (proj1 (Forall_forall _ _) H x Hx) as Hi. simpl in Hi.
    by destruct x.
Qed.

Lemma length_sanitize rewards : length (sanitize rewards) = length rewards.
Proof. unfold sanitize. destruct (existsb _ _); [apply length_fmap|done]. Qed.

Lemma update_scores_ok rewards uids v s :
  scatter (scores v) uids (sanitize rewards) = Some s →
  ∃ v', update_scores rewards uids v = Ok tt v' ∧
    scores v' = tadd (smul (moving_average_alpha (cfg v)) s)
                     (smul (fsub fone (moving_average_alpha (cfg v))) (scores v)) ∧
    (existsb isnan rewards = true → warned "NaN values detected in rewards" v').
Proof.
  intros Hs. unfold update_scores, sanitize, bind, log, modify, get, ret in *.
  destruct (existsb isnan rewards) eqn:E; cbn -[fsub]; rewrite Hs; cbn -[fsub];
    (eexists; split; [reflexivity|]); cbn -[fsub]; (split; [done|]); [|done].
  intros _. exists rewards. cbn -[fsub]. set_solver.
Qed.

Lemma finite_fsub_one a : finite a → finite (fsub fone a).
Proof. rewrite !finite_Fin. intros [q ->]. by eexists. Qed.

Lemma Forall_finite_ema a s o :
  finite a → Forall finite s → Forall finite o →
  Forall finite (tadd (smul a s) (smul (fsub fone a) o)).
Proof.
  intros Ha Hs Ho. apply Forall_lookup. intros k x.
  rewrite lookup_ema_tensor.
  destruct (s !! k) as [sx|] eqn:Es; [|done].
  destruct (o !! k) as [ox|] eqn:Eo; [|done].
  intros [= <-]. apply finite_ema; [done| |].
  - exact (Forall_lookup_1 _ _ _ _ Hs Es).
  - exact (Forall_lookup_1 _ _ _ _ Ho Eo).
Qed.

(** C3 (amended).  For every reward batch given to [update_scores] (a reward
    for every slot, slots distinct and inside the score vector) the update
    succeeds; every NaN reward is replaced with 0 before it is merged, so its
    slot gets [alpha * 0 + (1 - alpha) * old], and a warning is logged; a
    batch without NaN is merged as it is, infinite rewards included.  When
    the batch has no infinite value, alpha lies in [0, 1] and the scores were
    finite, the score vector has no non-finite entry after the update. *)
Theorem update_scores_replaces_nan v rewards uids :
  NoDup uids → length uids ≤ length rewards →
  Forall (λ u, u < length (scores v)) uids →
  ∃ v', update_scores rewards uids v = Ok tt v' ∧
    (∀ i u old, uids !! i = Some u → rewards !! i = Some NaN →
       scores v !! u = Some old →
       scores v' !! u = Some (ema (moving_average_alpha (cfg v)) fzero old) ∧
       warned "NaN values detected in rewards" v') ∧
    (existsb isnan rewards = false →
     ∀ i u r old, uids !! i = Some u → rewards !! i = Some r →
       scores v !! u = Some old →
       scores v' !! u = Some (ema (moving_average_alpha (cfg v)) r old)) ∧
    (∀ a : Qc, moving_average_alpha (cfg v) = Fin a → (0 ≤ a ≤ 1)%Qc →
     Forall (λ x, isinf x = false) rewards →
     Forall finite (scores v) → Forall finite (scores v')).
Proof.
  intros Hnd Hlen Hin.
  destruct (scatter_loop_is_Some uids (scores v) (sanitize rewards)) as [s Hs].
  { rewrite length_sanitize. lia. }
  { done. }
  destruct (update_scores_ok rewards uids v s Hs) as (v' & Hrun & Hsc & Hwarn).
  exists v'. split; [done|]. split; [|split].
  - intros i u old Hu Hr Hold. split.
    + rewrite Hsc, lookup_ema_tensor, Hold.
      rewrite (scatter_loop_present _ _ _ _ i u fzero Hs Hnd Hu); [done|].
      by apply sanitize_lookup_nan.
    + apply Hwarn, existsb_exists. exists NaN. split; [|done].
      apply list_elem_of_In. by eapply list_elem_of_lookup_2.
  - intros Hnone i u r old Hu Hr Hold.
    rewrite (sanitize_no_nan _ Hnone) in Hs.
    rewrite Hsc, lookup_ema_tensor, Hold.
    by rewrite (scatter_loop_present _ _ _ _ i u r Hs Hnd Hu Hr).
  - intros a Ha _ Hinf Hfin. rewrite Hsc.
    apply Forall_finite_ema; [rewrite Ha; by apply finite_Fin; eexists| |done].
    eapply scatter_loop_Forall; [| |exact Hs]; [done|].
    by apply sanitize_finite.
Qed.


Lemma update_scores_replaces_nan_witness :
  ∃ v', update_scores [NaN; ratio 1 2] [0; 1] three_slots = Ok tt v' ∧
    scores v' !! 0 = Some (ema (ratio 1 5) fzero fzero) ∧
    warned "NaN values detected in rewards" v' ∧
    Forall finite (scores v').
Proof.
  destruct (update_scores_replaces_nan three_slots [NaN; ratio 1 2] [0; 1])
    as (v' & Hrun & Hnan & _ & Hfin).
  - by_evaluation.
  - reflexivity.
  - repeat (apply Forall_cons_2; [cbn; lia|]). apply Forall_nil_2.
  - exists v'. split; [exact Hrun|].
    destruct (Hnan 0 0 fzero) as [H1 H2]; [reflexivity..|].
    split; [exact H1|]. split; [exact H2|].
    apply (Hfin (Q2Qc (1 # 5))); [reflexivity|split; by_evaluation| |];
      repeat constructor.
Defined.

(** C3 (counterexample).  An infinite reward in a batch without NaN is merged
    as it is: no warning is logged and the score of its slot becomes
    infinite. *)
Lemma update_scores_merges_infinity :
  ∃ v', update_scores [PInf] [0] three_slots = Ok tt v' ∧
    scores v' !! 0 = Some PInf ∧
    (lvl <$> logs v') = [LDebug; LDebug].
Proof. eexists. split; [vm_compute; reflexivity|]. split; reflexivity. Qed.

(** C5 (amended).  For every reward batch with finite values (a reward for
    every slot, slots distinct and inside the score vector) and a finite alpha,
    [update_scores] sets the score of every slot of the batch to
    [alpha * reward + (1 - alpha) * old_score] and keeps the length of the
    vector.  A slot absent from the batch is not skipped: [scatter] puts its
    old score in the place of a reward and the same formula is applied, so
    its new score is [alpha * old + (1 - alpha) * old], computed anew.  An
    empty batch recomputes every slot in this way.  Whether the recomputed
    value is the old score is a matter of the float32 arithmetic, and is not
    stated here. *)
Theorem update_scores_moving_average v rewards uids (a : Qc) :
  moving_average_alpha (cfg v) = Fin a →
  Forall finite rewards → NoDup uids → length uids ≤ length rewards →
  Forall (λ u, u < length (scores v)) uids →
  ∃ v', update_scores rewards uids v = Ok tt v' ∧
    length (scores v') = length (scores v) ∧
    (∀ i u r old, uids !! i = Some u → rewards !! i = Some r →
       scores v !! u = Some old →
       scores v' !! u = Some (ema (Fin a) r old)) ∧
    (∀ s old, s ∉ uids → scores v !! s = Some old →
       scores v' !! s = Some (ema (Fin a) old old)) ∧
    (uids = [] →
     scores v' = (λ old, ema (Fin a) old old) <$> scores v).
Proof.
  intros Ha Hfin Hnd Hlen Hin.
  pose proof (sanitize_no_nan rewards (existsb_isnan_false rewards Hfin)) as Hsan.
  destruct (scatter_loop_is_Some uids (scores v) (sanitize rewards)) as [s Hs].
  { rewrite length_sanitize. lia. }
  { done. }
  destruct (update_scores_ok rewards uids v s Hs) as (v' & Hrun & Hsc & _).
  rewrite Ha in Hsc. rewrite Hsan in Hs.
  assert (∀ k old, k ∉ uids → scores v !! k = Some old →
            scores v' !! k = Some (ema (Fin a) old old)) as Habs.
  { intros k old Hk Hq. rewrite Hsc, lookup_ema_tensor, Hq.
    by rewrite (scatter_loop_absent _ _ _ _ k Hs Hk), Hq. }
  exists v'. split; [done|]. split; [|split; [|split]].
  - rewrite Hsc. apply length_ema_tensor. by eapply scatter_loop_length.
  - intros i u r old Hu Hr Hold. rewrite Hsc, lookup_ema_tensor, Hold.
    by rewrite (scatter_loop_present _ _ _ _ i u r Hs Hnd Hu Hr).
  - done.
  - intros ->. apply list_eq. intros k. rewrite list_lookup_fmap.
    destruct (scores v !! k) as [x|] eqn:Ex.
    + apply Habs; [|done]. apply not_elem_of_nil.
    + rewrite Hsc, lookup_ema_tensor, Ex. by destruct (s !! k).
Qed.

Lemma update_scores_moving_average_witness :
  ∃ v', update_scores [ratio 1 2] [1] three_slots = Ok tt v' ∧
    scores v' !! 1 = Some (ema (ratio 1 5) (ratio 1 2) fzero) ∧
    scores v' !! 0 = Some (ema (ratio 1 5) fzero fzero).
Proof.
  destruct (update_scores_moving_average three_slots [ratio 1 2] [1]
              (Q2Qc (1 # 5)))
    as (v' & Hrun & _ & Hin & Hout & _).
  - reflexivity.
  - repeat constructor.
  - by_evaluation.
  - reflexivity.
  - repeat (apply Forall_cons_2; [cbn; lia|]). apply Forall_nil_2.
  - exists v'. split; [exact Hrun|]. split.
    + apply (Hin 0 1 (ratio 1 2) fzero); reflexivity.
    + apply (Hout 0 fzero); [|reflexivity].
      intros H. apply list_elem_of_singleton in H. discriminate.
Defined.

(** C5 (counterexample).  With [alpha = 1] a batch for slot 1 alone turns
    the infinite score of slot 0, which is absent from the batch, into NaN
    ([1 * inf + 0 * inf]). *)
Lemma update_scores_absent_infinite_score :
  (∃ v', update_scores [ratio 1 2] [1] saturated = Ok tt v' ∧
         scores v' !! 0 = Some NaN) ∧
  scores saturated !! 0 = Some PInf ∧ 0 ∉ [1].
Proof.
  split; [|split; [reflexivity|by_evaluation]].
  eexists. split; [vm_compute; reflexivity|reflexivity].
Qed.

(** ** Weight normalisation *)

Local Open Scope Qc_scope.

Lemma Qcltb_lt (x y : Qc) : Qcltb x y = true ↔ x < y.
Proof.
  unfold Qcltb. rewrite negb_true_iff, Qclt_nge.
  destruct (Qle_bool y x) eqn:E.
  - apply Qle_bool_iff in E. split; [done|]. intros H. by destruct H.
  - split; [|done]. intros _ H. apply Qle_bool_iff in H. congruence.
Qed.

Lemma Qcltb_ge (x y : Qc) : Qcltb x y = false ↔ y ≤ x.
Proof.
  rewrite Qcle_ngt, <- Qcltb_lt. by destruct (Qcltb x y).
Qed.

Lemma normalize_eps_pos : 0 < normalize_eps.
Proof. by apply Qcltb_lt. Qed.

Lemma nonneg_list (l : list fp) :
  Forall nonneg l → ∃ qs : list Qc, l = Fin <$> qs ∧ Forall (λ q, 0 ≤ q) qs.
Proof.
  induction 1 as [|x l (q & -> & Hq) _ (qs & -> & Hqs)].
  - by exists [].
  - exists (q :: qs). split; [done|]. by constructor.
Qed.

Lemma foldl_fadd_Fin (qs : list Qc) : ∀ a,
  foldl fadd (Fin a) (Fin <$> qs) = Fin (foldl Qcplus a qs).
Proof. induction qs as [|q qs IH]; intros a; simpl; [done|]. apply IH. Qed.

Lemma fabs_nonneg (qs : list Qc) :
  Forall (λ q, 0 ≤ q) qs → fabs <$> (Fin <$> qs) = Fin <$> qs.
Proof.
  induction 1 as [|q qs Hq _ IH]; simpl; [done|].
  f_equal; [|done]. f_equal. by apply Qcltb_ge in Hq as ->.
Qed.

Lemma foldl_Qcplus_div (t : Qc) (qs : list Qc) : t ≠ 0 → ∀ a,
  foldl Qcplus (a / t) ((λ x, x / t) <$> qs) = foldl Qcplus a qs / t.
Proof.
  intros Ht. induction qs as [|q qs IH]; intros a; simpl; [done|].
  rewrite <- IH. f_equal. field. done.
Qed.

Lemma Qcdiv_nonneg (a t : Qc) : 0 ≤ a → 0 < t → 0 ≤ a / t.
Proof.
  intros Ha Ht. apply (Qcmult_lt_0_le_reg_r _ _ t Ht).
  rewrite Qcmult_0_l. replace (a / t * t) with a; [done|].
  field. by apply Qclt_not_eq in Ht.
Qed.

Lemma normalize_nonneg (qs : list Qc) :
  Forall (λ q, 0 ≤ q) qs → normalize_eps ≤ foldl Qcplus 0 qs →
  normalize (Fin <$> qs) = Fin <$> ((λ x, x / foldl Qcplus 0 qs) <$> qs).
Proof.
  intros Hqs Ht. set (t := foldl Qcplus 0 qs) in *.
  assert (0 < t) as Hpos by (eapply Qclt_le_trans; [apply normalize_eps_pos|done]).
  unfold normalize, norm1, fsum. rewrite fabs_nonneg by done.
  unfold fzero. rewrite foldl_fadd_Fin. fold t. simpl.
  apply Qcltb_ge in Ht as ->.
  rewrite <- !list_fmap_compose. apply list_fmap_ext. intros _ q _. simpl.
  by apply Qcltb_lt in Hpos as ->.
Qed.

Lemma foldl_fadd_NaN (l : list fp) : foldl fadd NaN l = NaN.
Proof. induction l as [|x l IH]; [done|]. simpl. by destruct x. Qed.

Lemma fsum_NaN (l : list fp) : ∀ acc, NaN ∈ l → foldl fadd acc l = NaN.
Proof.
  induction l as [|x l IH]; intros acc Hin; [by apply elem_of_nil in Hin|].
  apply elem_of_cons in Hin as [<-|Hin]; simpl.
  - replace (fadd acc NaN) with NaN by (by destruct acc).
    apply foldl_fadd_NaN.
  - by apply IH.
Qed.

(** One NaN score makes every raw weight NaN: the normalisation does not
    treat it as 0. *)
Lemma normalize_NaN (v : list fp) :
  NaN ∈ v → Forall (λ w, w = NaN) (normalize v).
Proof.
  intros Hin. unfold normalize, norm1, fsum.
  rewrite fsum_NaN by (apply (list_elem_of_fmap_2 fabs) in Hin; exact Hin).
  apply Forall_fmap, Forall_true. intros x. by destruct x.
Qed.

Lemma raw_weights_of_nan_scores : raw_weights nan_scores = [NaN; NaN].
Proof. reflexivity. Qed.

(** C4 (amended).  For every score vector whose entries are finite and
    non-negative and whose sum is at least the [eps = 1e-12] of the
    normalisation and at most half of [FLT_MAX], the raw weights of
    [set_weights] sum to 1, are non-negative, and are 0 at every slot whose
    score is 0.  Sums are exact here: the theorem gives the sum 1 up to the
    rounding of float32.  The upper bound keeps the float32 sum of the scores
    away from overflow, which the exact sums of [fadd] do not have: on the
    scores [FLT_MAX; FLT_MAX] the norm computed by torch is infinite and
    both raw weights are 0.  Nothing is promised for a vector with a NaN. *)
Theorem raw_weights_sum_to_one v (t : Qc) :
  Forall nonneg (scores v) → fsum (scores v) = Fin t → normalize_eps ≤ t →
  2 * t ≤ FLT_MAX →
  fsum (raw_weights v) = fone ∧
  Forall nonneg (raw_weights v) ∧
  (∀ s, scores v !! s = Some fzero → raw_weights v !! s = Some fzero).
Proof.
  intros Hnn Hsum Ht _. unfold raw_weights.
  destruct (nonneg_list _ Hnn) as (qs & Eq & Hqs). rewrite Eq in *.
  unfold fsum, fzero in Hsum. rewrite foldl_fadd_Fin in Hsum.
  injection Hsum as Hsum. subst t.
  assert (0 < foldl Qcplus 0 qs) as Hpos
    by (eapply Qclt_le_trans; [apply normalize_eps_pos|done]).
  rewrite normalize_nonneg by done. split; [|split].
  - unfold fsum, fzero. rewrite foldl_fadd_Fin.
    replace 0 with (0 / foldl Qcplus 0 qs) at 1 by (field; by apply Qclt_not_eq in Hpos).
    rewrite foldl_Qcplus_div by (by apply Qclt_not_eq in Hpos).
    unfold fone. f_equal. field. by apply Qclt_not_eq in Hpos.
  - apply Forall_fmap, Forall_fmap. eapply Forall_impl; [exact Hqs|].
    intros q Hq. simpl. eexists. split; [done|]. by apply Qcdiv_nonneg.
  - intros s. rewrite !list_lookup_fmap.
    destruct (qs !! s) as [q|]; [|done]. simpl. intros [= ->].
    unfold fzero. do 2 f_equal. field. by apply Qclt_not_eq in Hpos.
Qed.

Lemma raw_weights_sum_to_one_witness :
  fsum (raw_weights one_trusted) = fone ∧
  raw_weights one_trusted !! 1%nat = Some fzero.
Proof.
  destruct (raw_weights_sum_to_one one_trusted (0 + Q2Qc (1 # 5) + 0 + 0))
    as (Hsum & _ & Hzero).
  - repeat (apply Forall_cons_2;
            [eexists; split; [reflexivity|by_evaluation]|]).
    apply Forall_nil_2.
  - reflexivity.
  - by_evaluation.
  - by_evaluation.
  - split; [exact Hsum|]. apply Hzero. reflexivity.
Defined.

(** C4 (counterexample).  With a negative score the raw weights have a
    negative entry and sum to 0; with a total below [eps] they sum to less
    than 1. *)
Lemma raw_weights_signed_or_tiny :
  raw_weights signed_scores = [ratio (-1) 2; ratio 1 2] ∧
  fsum (raw_weights signed_scores) = fzero ∧
  raw_weights tiny_scores = [ratio 1 10] ∧
  fzero ≠ fone ∧ ratio 1 10 ≠ fone.
Proof. by_evaluation. Qed.

Close Scope Qc_scope.

(** ** Registry sync *)

Lemma zero_replaced_spec old : ∀ uid current v,
  uid + length old ≤ length current →
  uid + length old ≤ length (scores v) →
  ∃ v', zero_replaced uid old current v = Ok tt v' ∧
    hotkeys v' = hotkeys v ∧
    length (scores v') = length (scores v) ∧
    (∀ i h h', old !! i = Some h → current !! (uid + i) = Some h' → h ≠ h' →
       scores v' !! (uid + i) = Some fzero) ∧
    (∀ k, k < uid ∨ uid + length old ≤ k ∨
          (∃ i, k = uid + i ∧ is_Some (old !! i) ∧ old !! i = current !! k) →
       scores v' !! k = scores v !! k).
Proof.
  induction old as [|h rest IH]; intros uid current v Hcur Hsc; simpl in *.
  - exists v. repeat split; done.
  - destruct (lookup_lt_is_Some_2 current uid) as [h' Hh']; [lia|].
    rewrite Hh'. unfold bind, when.
    destruct (bool_decide (h ≠ h')) eqn:Hd.
    + apply bool_decide_eq_true in Hd.
      unfold setitem_scores, bind, get, modify.
      destruct (decide (uid < length (scores v))) as [_|]; [|lia].
      set (v1 := with_scores (<[uid:=fzero]> (scores v)) v).
      destruct (IH (S uid) current v1) as (v' & Hrun & Hhk & Hlen & Ha & Hb).
      { lia. } { simpl. rewrite length_insert. lia. }
      exists v'. split; [done|]. split; [done|]. split.
      { rewrite Hlen. simpl. apply length_insert. }
      split.
      * intros [|j] x y Hx Hy Hne.
        -- rewrite Hb by lia. simpl. rewrite Nat.add_0_r.
           apply list_lookup_insert_eq. lia.
        -- replace (uid + S j) with (S uid + j) in * by lia. eauto.
      * intros k Hk. assert (k ≠ uid) as Hne.
        { destruct Hk as [?|[?|([|j] & -> & _ & Hj)]]; try lia.
          rewrite Nat.add_0_r in Hj. simpl in Hj. congruence. }
        rewrite Hb.
        -- simpl. apply list_lookup_insert_ne. lia.
        -- destruct Hk as [?|[?|([|j] & -> & Hs & Hj)]]; [lia|lia|lia|].
           right. right. exists j. split; [lia|]. done.
    + apply bool_decide_eq_false in Hd. apply dec_stable in Hd. subst h'.
      unfold ret.
      destruct (IH (S uid) current v) as (v' & Hrun & Hhk & Hlen & Ha & Hb);
        [lia|lia|].
      exists v'. split; [done|]. split; [done|]. split; [done|]. split.
      * intros [|j] x y Hx Hy Hne.
        -- rewrite Nat.add_0_r in Hy. simpl in Hx. congruence.
        -- replace (uid + S j) with (S uid + j) in * by lia. eauto.
      * intros k Hk. apply Hb.
        destruct Hk as [?|[?|([|j] & -> & Hs & Hj)]]; [lia|lia|lia|].
        right. right. exists j. split; [lia|]. done.
Qed.

Lemma zero_replaced_same old : ∀ uid current v,
  (∀ i h, old !! i = Some h → current !! (uid + i) = Some h) →
  zero_replaced uid old current v = Ok tt v.
Proof.
  induction old as [|h rest IH]; intros uid current v Hsame; simpl; [done|].
  pose proof (Hsame 0 h eq_refl) as H0. rewrite Nat.add_0_r in H0.
  rewrite H0. unfold bind, when.
  rewrite bool_decide_eq_false_2 by (intros Hne; by apply Hne).
  unfold ret. apply IH. intros i x Hx.
  replace (S uid + i) with (uid + S i) by lia. by apply Hsame.
Qed.

Lemma resync_changed_run v synced :
  metagraph v ≠ synced →
  length (hotkeys v) ≤ length synced →
  length (hotkeys v) ≤ length (scores v) →
  ∃ v1 v', resync_metagraph synced v = Ok PyNone v' ∧
    hotkeys v' = metagraph_hotkeys synced ∧
    scores v' =
      (if bool_decide (length (hotkeys v) < length (metagraph_hotkeys synced))
       then take (length (hotkeys v) `min` length (scores v1)) (scores v1)
            ++ drop (length (hotkeys v) `min` length (scores v1))
                    (zeros (metagraph_n synced))
       else scores v1) ∧
    length (scores v1) = length (scores v) ∧
    (∀ s h h', hotkeys v !! s = Some h →
       metagraph_hotkeys synced !! s = Some h' → h ≠ h' →
       scores v1 !! s = Some fzero) ∧
    (∀ s, is_Some (hotkeys v !! s) →
       hotkeys v !! s = metagraph_hotkeys synced !! s →
       scores v1 !! s = scores v !! s) ∧
    (∀ s, length (hotkeys v) ≤ s → scores v1 !! s = scores v !! s).
Proof.
  intros Hne Hlen Hsc.
  unfold resync_metagraph, bind, log, modify, get, ret. simpl.
  rewrite bool_decide_eq_false_2 by done.
  match goal with |- context [zero_replaced 0 _ _ ?x] => set (v0 := x) end.
  destruct (zero_replaced_spec (hotkeys v) 0 (metagraph_hotkeys synced) v0)
    as (v1 & Hrun & Hhk & Hl & Ha & Hb).
  { unfold metagraph_hotkeys. rewrite length_fmap. simpl. lia. }
  { simpl. lia. }
  exists v1. rewrite Hrun, Hhk. simpl. unfold when.
  assert (∃ v', (if bool_decide (length (hotkeys v) < length (metagraph_hotkeys synced))
       then modify (with_scores (take (length (hotkeys v) `min` length (scores v1)) (scores v1)
            ++ drop (length (hotkeys v) `min` length (scores v1))
                    (zeros (metagraph_n synced)))) else ret tt) v1 = Ok tt v' ∧
       scores v' = (if bool_decide (length (hotkeys v) < length (metagraph_hotkeys synced))
       then take (length (hotkeys v) `min` length (scores v1)) (scores v1)
            ++ drop (length (hotkeys v) `min` length (scores v1))
                    (zeros (metagraph_n synced))
       else scores v1)) as (v2 & Hv2 & Hsv2).
  { destruct (bool_decide _); eexists; (split; [reflexivity|]); done. }
  unfold modify, ret in *. rewrite Hv2. simpl.
  eexists. split; [reflexivity|]. simpl. split; [done|]. split; [done|].
  split; [done|]. split; [|split].
  - intros s h h' H1 H2 H3. by apply (Ha s h h').
  - intros s Hs Heq. apply Hb. right. right. exists s. done.
  - intros s Hs. apply Hb. right. left. simpl. lia.
Qed.

(** C6 (amended).  For every resync in which the registry read from the
    chain differs from the metagraph held before (so that the early return
    is not taken), the registry is not shorter than the stored snapshot and
    the score vector covers the snapshot: a slot whose identity differs from
    the stored snapshot has score 0 afterwards, whatever it was. *)
Theorem resync_zeroes_replaced_slot v synced s old new :
  metagraph v ≠ synced →
  length (hotkeys v) ≤ length synced →
  length (hotkeys v) ≤ length (scores v) →
  hotkeys v !! s = Some old → metagraph_hotkeys synced !! s = Some new →
  old ≠ new →
  ∃ v', resync_metagraph synced v = Ok PyNone v' ∧ scores v' !! s = Some fzero.
Proof.
  intros Hne Hlen Hsc Hold Hnew Hdiff.
  destruct (resync_changed_run v synced Hne Hlen Hsc)
    as (v1 & v' & Hrun & _ & Hs & Hl & Ha & _).
  exists v'. split; [done|]. rewrite Hs.
  pose proof (lookup_lt_Some _ _ _ Hold) as Hlt.
  destruct (bool_decide _); [|by eapply Ha].
  rewrite lookup_app_l by (rewrite length_take; lia).
  rewrite lookup_take_lt by lia. by eapply Ha.
Qed.


Lemma resync_zeroes_replaced_slot_witness :
  ∃ v', resync_metagraph (axon_of <$> ["A"; "C"]) settled = Ok PyNone v' ∧
    scores v' !! 1 = Some fzero.
Proof.
  apply (resync_zeroes_replaced_slot settled (axon_of <$> ["A"; "C"]) 1
           "B" "C").
  - by_evaluation.
  - cbn. lia.
  - cbn. lia.
  - reflexivity.
  - reflexivity.
  - by_evaluation.
Defined.

(** C6 (counterexample).  After [load_state] of an older checkpoint the
    stored snapshot has B at slot 1 where the metagraph holds C; the registry
    read is the metagraph held, so [resync_metagraph] returns early and
    slot 1 keeps its score 1/2. *)
Lemma resync_stale_replaced_slot_kept :
  hotkeys stale_replaced !! 1 = Some "B" ∧
  metagraph stale_replaced = axon_of <$> ["A"; "C"] ∧
  metagraph_hotkeys (axon_of <$> ["A"; "C"]) !! 1 = Some "C" ∧
  (∃ v', resync_metagraph (axon_of <$> ["A"; "C"]) stale_replaced
           = Ok PyNone v' ∧
         scores v' !! 1 = Some (ratio 1 2)) ∧
  ratio 1 2 ≠ fzero.
Proof.
  split; [reflexivity|]. split; [reflexivity|]. split; [reflexivity|].
  split; [|discriminate].
  eexists. split; [vm_compute; reflexivity|reflexivity].
Qed.

(** C7 (amended).  For every resync in which the registry read from the
    chain differs from the metagraph held before, is longer than the stored
    snapshot, and the score vector is as long as the snapshot: the score
    vector grows to the new length, every existing slot whose identity is
    unchanged keeps its score at its index, and every new slot has score 0.
    (An existing slot whose identity changed is zeroed, see C6.) *)
Theorem resync_grows_score_vector v synced :
  metagraph v ≠ synced →
  length (hotkeys v) < length synced →
  length (scores v) = length (hotkeys v) →
  ∃ v', resync_metagraph synced v = Ok PyNone v' ∧
    length (scores v') = length synced ∧
    (∀ s, is_Some (hotkeys v !! s) →
       hotkeys v !! s = metagraph_hotkeys synced !! s →
       scores v' !! s = scores v !! s) ∧
    (∀ s, length (hotkeys v) ≤ s < length synced →
       scores v' !! s = Some fzero).
Proof.
  intros Hne Hlen Hsc.
  destruct (resync_changed_run v synced Hne) as
    (v1 & v' & Hrun & _ & Hs & Hl & _ & Hb & _); [lia|lia|].
  exists v'. split; [done|].
  rewrite bool_decide_eq_true_2 in Hs
    by (unfold metagraph_hotkeys; rewrite length_fmap; lia).
  rewrite Hl, Hsc, Nat.min_id in Hs. rewrite Hs. split; [|split].
  - rewrite length_app, length_take, length_drop. unfold zeros, metagraph_n.
    rewrite length_replicate. lia.
  - intros s Hin Heq. destruct Hin as [h Hh].
    pose proof (lookup_lt_Some _ _ _ Hh) as Hlt.
    rewrite lookup_app_l by (rewrite length_take; lia).
    rewrite lookup_take_lt by lia. apply Hb; [by eexists|done].
  - intros s [Hge Hlt].
    rewrite lookup_app_r by (rewrite length_take; lia).
    rewrite length_take, lookup_drop. unfold zeros, metagraph_n.
    apply lookup_replicate_2. lia.
Qed.


Lemma resync_grows_score_vector_witness :
  ∃ v', resync_metagraph replaced_and_grown settled = Ok PyNone v' ∧
    length (scores v') = 3 ∧
    scores v' !! 1 = Some (ratio 1 4) ∧
    scores v' !! 2 = Some fzero.
Proof.
  destruct (resync_grows_score_vector settled replaced_and_grown)
    as (v' & Hrun & Hlen & Hkeep & Hnew).
  - by_evaluation.
  - cbn. lia.
  - reflexivity.
  - exists v'. split; [exact Hrun|]. split; [exact Hlen|]. split.
    + rewrite (Hkeep 1); [reflexivity|by eexists|reflexivity].
    + apply Hnew. cbn. lia.
Defined.

(** C7 (counterexample).  After [load_state] of an older checkpoint the
    stored snapshot and the score vector have one slot, the metagraph two;
    the registry read is the metagraph held, so [resync_metagraph] returns
    early and the score vector keeps length 1.  And when the registry grows
    while slot 0 is replaced, the score of slot 0 is not preserved. *)
Lemma resync_stale_short_not_grown :
  length (hotkeys stale_short) = 1 ∧
  metagraph stale_short = axon_of <$> ["A"; "B"] ∧
  length (metagraph_hotkeys (axon_of <$> ["A"; "B"])) = 2 ∧
  (∃ v', resync_metagraph (axon_of <$> ["A"; "B"]) stale_short
           = Ok PyNone v' ∧
         scores v' = [ratio 1 2]) ∧
  (∃ v', resync_metagraph replaced_and_grown settled = Ok PyNone v' ∧
         scores settled !! 0 = Some (ratio 1 2) ∧
         scores v' = [fzero; ratio 1 4; fzero]).
Proof.
  split; [reflexivity|]. split; [reflexivity|]. split; [reflexivity|].
  split; eexists; (split; [vm_compute; reflexivity|]); [|split]; reflexivity.
Qed.

(** C8 (amended).  For every resync where the identities read are, position
    by position and in number, those of the stored snapshot,
    [resync_metagraph] raises nothing, returns [None] (the method has no
    boolean result) and leaves the score vector and the stored snapshot
    unchanged. *)
Theorem resync_same_snapshot v synced :
  metagraph_hotkeys synced = hotkeys v →
  ∃ v', resync_metagraph synced v = Ok PyNone v' ∧
    scores v' = scores v ∧ hotkeys v' = hotkeys v.
Proof.
  intros Hsame. unfold resync_metagraph, bind, log, modify, get, ret. simpl.
  destruct (bool_decide (metagraph v = synced)).
  { eexists. split; [reflexivity|]. done. }
  rewrite zero_replaced_same by (by rewrite Hsame). simpl.
  rewrite Hsame. unfold when.
  rewrite bool_decide_eq_false_2 by lia. simpl.
  eexists. split; [reflexivity|]. done.
Qed.


Lemma resync_same_snapshot_witness :
  ∃ v', resync_metagraph moved_endpoint settled = Ok PyNone v' ∧
    scores v' = scores settled ∧ hotkeys v' = hotkeys settled.
Proof. apply (resync_same_snapshot settled moved_endpoint). reflexivity. Defined.

(** C8 (counterexample).  On an identical snapshot the method returns
    [None], not [False]. *)
Lemma resync_returns_none :
  ∃ v', resync_metagraph (axon_of <$> ["A"; "B"]) settled = Ok PyNone v' ∧
        PyNone ≠ PyBool false.
Proof. eexists. split; [vm_compute; reflexivity|discriminate]. Qed.

(** ** What the methods leave alone *)

Lemma inert_last_query_block : inert last_query_block.
Proof. repeat split. Qed.

Lemma inert_cycles : inert cycles.
Proof. repeat split. Qed.

Section Frame.
Context {X : Type} (f : validator → X) (Hf : inert f).


Lemma keeps_ret {A} (a : A) : keeps f (ret a).
Proof. done. Qed.

Lemma keeps_raise {A} e : keeps f (@raise A e).
Proof. done. Qed.

Lemma keeps_get : keeps f get.
Proof. done. Qed.

Lemma keeps_bind {A B} (m : M A) (k : A → M B) :
  keeps f m → (∀ a, keeps f (k a)) → keeps f (bind m k).
Proof.
  intros Hm Hk v. unfold bind. specialize (Hm v).
  destruct (m v) as [a v'|e v']; simpl in *; [|done].
  by rewrite Hk.
Qed.

Lemma keeps_try_except {A} (m : M A) (h : string → M A) :
  keeps f m → (∀ kind, keeps f (h kind)) → keeps f (try_except m h).
Proof.
  intros Hm Hh v. unfold try_except. specialize (Hm v).
  destruct (m v) as [a v'|[| |kind] v']; simpl in *; try done.
  by rewrite Hh.
Qed.

Lemma keeps_when b (m : M unit) : keeps f m → keeps f (when b m).
Proof. destruct b; [done|]. intros _. apply keeps_ret. Qed.

Lemma keeps_call {A} (r : reply A) : keeps f (call r).
Proof. by destruct r. Qed.

Lemma keeps_log l s d : keeps f (log l s d).
Proof. intros v. apply Hf. Qed.

Lemma keeps_update_scores rewards uids : keeps f (update_scores rewards uids).
Proof.
  unfold update_scores. apply keeps_bind.
  - destruct (existsb isnan rewards); [|apply keeps_ret].
    apply keeps_bind; [apply keeps_log|intros; apply keeps_ret].
  - intros r. apply keeps_bind; [apply keeps_get|]. intros v.
    destruct (scatter _ _ _); [|apply keeps_raise].
    apply keeps_bind; [apply keeps_log|]. intros _.
    apply keeps_bind; [intros w; apply Hf|]. intros _.
    apply keeps_bind; [apply keeps_get|]. intros; apply keeps_log.
Qed.

Lemma keeps_setitem_scores uid x : keeps f (setitem_scores uid x).
Proof.
  unfold setitem_scores. apply keeps_bind; [apply keeps_get|]. intros v.
  destruct (decide _); [intros w; apply Hf|apply keeps_raise].
Qed.

Lemma keeps_zero_replaced old : ∀ uid current, keeps f (zero_replaced uid old current).
Proof.
  induction old as [|h rest IH]; intros uid current; simpl; [apply keeps_ret|].
  destruct (current !! uid); [|apply keeps_raise].
  apply keeps_bind; [|intros; apply IH].
  apply keeps_when, keeps_setitem_scores.
Qed.

Lemma keeps_resync_metagraph synced : keeps f (resync_metagraph synced).
Proof.
  unfold resync_metagraph.
  apply keeps_bind; [apply keeps_log|]. intros _.
  apply keeps_bind; [apply keeps_get|]. intros v.
  apply keeps_bind; [intros w; apply Hf|]. intros _.
  destruct (bool_decide _); [apply keeps_ret|].
  apply keeps_bind; [apply keeps_log|]. intros _.
  apply keeps_bind; [apply keeps_zero_replaced|]. intros _.
  apply keeps_bind; [apply keeps_get|]. intros v1.
  apply keeps_bind; [apply keeps_when; intros w; apply Hf|]. intros _.
  apply keeps_bind; [intros w; apply Hf|]. intros; apply keeps_ret.
Qed.

Lemma keeps_set_weights accepted : keeps f (set_weights accepted).
Proof.
  unfold set_weights.
  apply keeps_bind; [apply keeps_get|]. intros v.
  apply keeps_bind; [apply keeps_when, keeps_log|]. intros _.
  apply keeps_bind; [apply keeps_log|]. intros _.
  destruct accepted; apply keeps_log.
Qed.

Lemma keeps_save_state : keeps f save_state.
Proof.
  unfold save_state.
  apply keeps_bind; [apply keeps_log|]. intros _.
  apply keeps_bind; [apply keeps_get|]. intros v w. apply Hf.
Qed.

Lemma keeps_sync e : keeps f (sync e).
Proof.
  unfold sync. destruct (sync_fails e); [apply keeps_raise|].
  apply keeps_bind.
  { destruct (registry e); [|apply keeps_ret].
    apply keeps_bind; [apply keeps_resync_metagraph|intros; apply keeps_ret]. }
  intros _. apply keeps_bind.
  { destruct (weights_reply e); [apply keeps_set_weights|apply keeps_ret]. }
  intros _. apply keeps_when, keeps_save_state.
Qed.

Lemma keeps_log_to_wandb e : keeps f (log_to_wandb e).
Proof.
  unfold log_to_wandb.
  apply keeps_bind; [apply keeps_log|]. intros _.
  apply keeps_bind.
  { apply keeps_try_except.
    - apply keeps_bind; [apply keeps_get|]. intros v.
      apply keeps_bind; [apply keeps_call|]. intros _.
      apply keeps_bind; [intros w; apply Hf|]. intros _. apply keeps_log.
    - intros kind. apply keeps_bind; [apply keeps_log|intros; apply keeps_log]. }
  intros _. apply keeps_bind; [apply keeps_call|]. intros due.
  apply keeps_when, keeps_try_except.
  - apply keeps_bind; [apply keeps_call|]. intros _ w. apply Hf.
  - intros kind. apply keeps_bind; [apply keeps_log|intros; apply keeps_log].
Qed.

Lemma keeps_quantum a : keeps f (quantum a).
Proof.
  destruct a; [apply keeps_ret|apply keeps_update_scores|apply keeps_raise].
Qed.

Lemma iteration_keeps tasks : ∀ v, f (iteration tasks v).2 = f v.
Proof.
  induction tasks as [|[|a body] rest IH]; intros v; simpl; [done|apply IH|].
  pose proof (keeps_quantum a v) as Hq.
  destruct (quantum a v) as [[] v1|e v1]; simpl in Hq;
    specialize (IH v1); destruct (iteration rest v1) as [[ts e'] v2];
    simpl in *; congruence.
Qed.

Lemma gather_loop_keeps fuel : ∀ tasks v, f (gather_loop fuel tasks v).2 = f v.
Proof.
  induction fuel as [|fuel IH]; intros [|t tasks] v; try done.
  cbn [gather_loop].
  pose proof (iteration_keeps (t :: tasks) v) as Hi.
  destruct (iteration (t :: tasks) v) as [[ts [e|]] v1]; cbn [snd] in *; [done|].
  by rewrite IH.
Qed.

Lemma drain_keeps n : ∀ tasks v, f (drain n tasks v).2 = f v.
Proof.
  induction n as [|n IH]; intros tasks v; [done|]. cbn [drain].
  pose proof (iteration_keeps tasks v) as Hi.
  destruct (iteration tasks v) as [[ts e] v1]; cbn [snd] in *.
  by rewrite IH.
Qed.

Lemma concurrent_forward_frame fwd v :
  f (final (concurrent_forward fwd v)) = f (with_cycles (S (cycles v)) v).
Proof.
  unfold concurrent_forward.
  match goal with |- context [gather_loop ?n ?ts ?w] =>
    pose proof (gather_loop_keeps n ts w) as Hg;
    destruct (gather_loop n ts w) as [[ts1 [e|]] v1] end;
    cbn [snd final] in *; [|done].
  pose proof (drain_keeps wakeup_latency ts1 v1) as Hd.
  destruct (drain wakeup_latency ts1 v1) as [ts2 v2]; cbn [snd final] in *.
  destruct Hf as (_ & _ & _ & _ & _ & _ & _ & Hp). rewrite Hp. congruence.
Qed.

Lemma run_until_complete_frame {A} (m : M A) v :
  f (final (run_until_complete m v)) = f (final (m v)).
Proof.
  unfold run_until_complete.
  match goal with |- context [drain 1 ?ts ?w] =>
    pose proof (drain_keeps 1 ts w) as Hd;
    destruct (drain 1 ts w) as [ts1 v1] end.
  destruct Hf as (_ & _ & _ & _ & _ & _ & _ & Hp).
  cbn [snd] in Hd. rewrite Hp in Hd.
  destruct (m v); cbn [final] in *; rewrite Hp; done.
Qed.

End Frame.

(** ** Scheduler: the probe gate *)

Lemma after_probe_frame (b : Z) (e : pass_env) (w : bool) v :
  let r := (modify (with_last_query_block b) ;; sync (sync_of e) ;;
            when w (log_to_wandb e))%M v in
  cycles (final r) = cycles v ∧ last_query_block (final r) = b.
Proof.
  assert (∀ X (f : validator → X), inert f →
            keeps f (sync (sync_of e) ;; when w (log_to_wandb e))%M) as Hk.
  { intros X f Hf. apply keeps_bind; [by apply keeps_sync|]. intros _.
    by apply keeps_when, keeps_log_to_wandb. }
  unfold bind at 1. unfold modify. split; cbn zeta.
  - by rewrite (Hk _ cycles inert_cycles).
  - by rewrite (Hk _ last_query_block inert_last_query_block).
Qed.

Lemma dispatch_frame (e : pass_env) (v : validator) :
  cycles (final (dispatch e v)) = S (cycles v) ∧
  last_query_block (final (dispatch e v)) = last_query_block v.
Proof.
  unfold dispatch, bind, get. destruct (organic (cfg v)).
  - by rewrite (concurrent_forward_frame cycles inert_cycles),
      (concurrent_forward_frame last_query_block inert_last_query_block).
  - rewrite (run_until_complete_frame _ inert_cycles),
      (run_until_complete_frame _ inert_last_query_block).
    by rewrite (concurrent_forward_frame cycles inert_cycles),
      (concurrent_forward_frame last_query_block inert_last_query_block).
Qed.

Lemma run_pass_cases (QUERY_RATE : Z) (e : pass_env) (v : validator) :
  match subtensor_block e with
  | Throws ex => run_pass QUERY_RATE e v = Raise ex v
  | Value b =>
      if bool_decide (b - last_query_block v > QUERY_RATE)%Z
      then cycles (final (run_pass QUERY_RATE e v)) = S (cycles v) ∧
           (∀ c v', run_pass QUERY_RATE e v = Ok c v' →
              last_query_block v' = b) ∧
           (∀ v2, dispatch e (final (log LInfo "step block" [] v)) = Ok tt v2 →
              last_query_block (final (run_pass QUERY_RATE e v)) = b)
      else cycles (final (run_pass QUERY_RATE e v)) = cycles v ∧
           last_query_block (final (run_pass QUERY_RATE e v))
             = last_query_block v
  end.
Proof.
  remember (run_pass QUERY_RATE e v) as r eqn:Hr. unfold run_pass in Hr.
  destruct (subtensor_block e) as [b|ex]; cbn [call] in Hr; [|done].
  unfold bind at 1 in Hr. cbn [ret] in Hr. unfold bind at 1 in Hr.
  cbn [get] in Hr.
  destruct (bool_decide (b - last_query_block v > QUERY_RATE)%Z);
    cbn [when] in Hr.
  - unfold bind at 1 in Hr. unfold bind at 1 in Hr.
    unfold log at 1, modify at 1 in Hr.
    unfold log, modify. cbn [final].
    set (v1 := with_logs _ v) in *.
    destruct (dispatch_frame e v1) as [Hc _].
    change (cycles v1) with (cycles v) in Hc.
    unfold bind at 1 in Hr.
    destruct (dispatch e v1) as [[] v2|ex v2]; cbn [final] in Hc.
    + pose proof (after_probe_frame b e (negb (wandb_off (cfg v))) v2)
        as [Ha Hb].
      cbn zeta in Ha, Hb.
      destruct ((modify (with_last_query_block b) ;; sync (sync_of e) ;;
                 when (negb (wandb_off (cfg v))) (log_to_wandb e))%M v2)
        as [[] v3|ex v3]; cbn [final] in Ha, Hb.
      * destruct (should_exit e); subst r; cbn.
        -- split; [lia|]. split; [by intros ? ? [= _ <-]|done].
        -- split; [lia|]. split; [by intros ? ? [= _ <-]|done].
      * subst r. cbn. split; [lia|done].
    + subst r. cbn. done.
  - cbn [ret] in Hr. destruct (should_exit e); subst r; done.
Qed.

(** C9 (amended).  In every pass of the loop a probe cycle is dispatched
    exactly when the block height read exceeds
    [last_query_block + QUERY_RATE] (the count of dispatched cycles then
    grows by one).  Whenever the dispatched cycle returns, [last_query_block]
    is then the block height read: in the neuron that a completed pass
    returns, and already in the neuron the pass leaves when the dispatch
    itself returned.  A pass without a dispatch leaves the count and
    [last_query_block] as they were. *)
Theorem run_pass_probe_gate (QUERY_RATE : Z) (e : pass_env) (v : validator) :
  let r := run_pass QUERY_RATE e v in
  (cycles (final r) = S (cycles v) ↔
     ∃ b, subtensor_block e = Value b ∧
          (b - last_query_block v > QUERY_RATE)%Z) ∧
  (∀ b, subtensor_block e = Value b →
     (b - last_query_block v > QUERY_RATE)%Z →
     (∀ c v', r = Ok c v' → last_query_block v' = b) ∧
     (∀ v2, dispatch e (final (log LInfo "step block" [] v)) = Ok tt v2 →
        last_query_block (final r) = b)) ∧
  (cycles (final r) ≠ S (cycles v) →
     cycles (final r) = cycles v ∧
     last_query_block (final r) = last_query_block v).
Proof.
  intros r. subst r. pose proof (run_pass_cases QUERY_RATE e v) as H.
  destruct (subtensor_block e) as [b|ex].
  - destruct (bool_decide (b - last_query_block v > QUERY_RATE)%Z) eqn:Hgate.
    + apply bool_decide_eq_true in Hgate. destruct H as (Hc & Hl & Hd).
      split; [|split]; [split; [eauto|done]| |done].
      by intros ? [= <-] _.
    + apply bool_decide_eq_false in Hgate. destruct H as [Hc Hl].
      split; [|split]; [|by intros ? [= <-]|done].
      split; [lia|]. by intros (? & [= <-] & ?).
  - rewrite H. cbn. split; [|split]; [|done|done].
    split; [lia|]. by intros (? & [=] & _).
Qed.

(** C9 (counterexample).  At block 10, with the last probe at block 0 and
    [QUERY_RATE = 2], a cycle is dispatched; its first sub-cycle raises, the
    dispatch raises with it, and the pass ends before the assignment:
    [last_query_block] is still 0. *)
Lemma run_pass_failed_dispatch :
  (10 - last_query_block three_slots > 2)%Z ∧
  (∃ v', run_pass 2 (pass_at (Value 10%Z) one_fails) three_slots
           = Raise (Exception "TimeoutError") v') ∧
  cycles (final (run_pass 2 (pass_at (Value 10%Z) one_fails) three_slots))
    = 1 ∧
  last_query_block
    (final (run_pass 2 (pass_at (Value 10%Z) one_fails) three_slots)) = 0%Z.
Proof.
  split; [by_evaluation|].
  split; [eexists; vm_compute; reflexivity|]. by_evaluation.
Qed.

Example run_pass_due :
  let r := run_pass 2 (pass_at (Value 10%Z) idle_forward) three_slots in
  cycles (final r) = 1 ∧ last_query_block (final r) = 10%Z ∧
  step (final r) = 1%Z.
Proof. cbv zeta. by_evaluation. Qed.

Example run_pass_not_due :
  let r := run_pass 2 (pass_at (Value 2%Z) idle_forward) three_slots in
  cycles (final r) = 0 ∧ last_query_block (final r) = 0%Z ∧
  step (final r) = 1%Z.
Proof. cbv zeta. by_evaluation. Qed.

(** ** State persistence *)

(** C10.  After [save_state] of a neuron [v], [load_state] in any neuron
    with the same path that finds the blob store as the save left it
    succeeds and sets the step counter, the score vector, the hotkey
    snapshot and the last queried block to the values they had in [v]. *)
Theorem save_load_roundtrip (v v1 : validator) :
  full_path (cfg v1) = full_path (cfg v) →
  files v1 = files (final (save_state v)) →
  ∃ v2, load_state v1 = Ok tt v2 ∧
    step v2 = step v ∧ scores v2 = scores v ∧ hotkeys v2 = hotkeys v ∧
    last_query_block v2 = last_query_block v.
Proof.
  intros Hpath Hfiles.
  unfold load_state, bind, log, modify, get.
  assert (files v1 !! state_path v1 =
          Some {| ck_step := step v; ck_scores := scores v;
                  ck_hotkeys := hotkeys v;
                  ck_last_query_block := last_query_block v |}) as Hget.
  { rewrite Hfiles. unfold state_path. rewrite Hpath.
    unfold save_state, bind, log, modify, get. cbn [final files with_files].
    apply lookup_insert_eq. }
  change (files (with_logs ?l v1)) with (files v1).
  change (state_path (with_logs ?l v1)) with (state_path v1).
  rewrite Hget. eexists. split; [reflexivity|]. done.
Qed.

Lemma save_load_roundtrip_witness :
  ∃ v2, load_state restarted = Ok tt v2 ∧
    step v2 = 7%Z ∧ scores v2 = [ratio 1 2; ratio 1 4] ∧
    hotkeys v2 = ["A"; "B"] ∧ last_query_block v2 = 42%Z.
Proof.
  apply (save_load_roundtrip checkpointed restarted); reflexivity.
Defined.

Example load_state_without_checkpoint :
  ∃ v', load_state three_slots = Raise (Exception "FileNotFoundError") v'.
Proof. eexists. vm_compute. reflexivity. Qed.

(** ** Probe dispatcher: the join *)

Lemma iteration_unfinished tasks : ∀ v,
  Forall (λ t, t ≠ []) (iteration tasks v).1.1.
Proof.
  induction tasks as [|[|a body] rest IH]; intros v; cbn [iteration].
  - apply Forall_nil_2.
  - apply IH.
  - destruct (quantum a v) as [[] v1|e v1]; specialize (IH v1);
      destruct (iteration rest v1) as [[ts e'] v2]; cbn [fst] in *; [|done].
    destruct body; [done|]. by apply Forall_cons_2.
Qed.

Lemma iteration_longest tasks : ∀ v,
  longest (iteration tasks v).1.1 ≤ pred (longest tasks).
Proof.
  induction tasks as [|[|a body] rest IH]; intros v; cbn [iteration].
  - done.
  - cbn. apply IH.
  - destruct (quantum a v) as [[] v1|e v1]; specialize (IH v1);
      destruct (iteration rest v1) as [[ts e'] v2]; cbn [fst] in *.
    + destruct body; unfold longest in *; cbn [foldr length] in *; lia.
    + unfold longest in *. cbn [foldr length] in *. lia.
Qed.

Lemma longest_0 tasks :
  Forall (λ t, t ≠ []) tasks → longest tasks = 0 → tasks = [].
Proof.
  destruct 1 as [|t tasks Ht _]; [done|].
  destruct t; [done|]. unfold longest. cbn [foldr length]. lia.
Qed.

(** With the fuel [concurrent_forward] gives it, the gather returns without
    an exception only when every sub-cycle has run to its end. *)
Lemma gather_loop_joins fuel : ∀ tasks v ts v',
  longest tasks < fuel →
  gather_loop fuel tasks v = (ts, None, v') → ts = [].
Proof.
  induction fuel as [|fuel IH]; intros tasks v ts v' Hfuel; [lia|].
  destruct tasks as [|t tasks]; [by intros [= <- _]|].
  cbn [gather_loop].
  pose proof (iteration_unfinished (t :: tasks) v) as Hne.
  pose proof (iteration_longest (t :: tasks) v) as Hlong.
  destruct (iteration (t :: tasks) v) as [[ts1 [e|]] v1]; cbn [fst] in *;
    [done|].
  destruct (decide (longest ts1 = 0)) as [H0|H0].
  - rewrite (longest_0 ts1 Hne H0). destruct fuel; by intros [= <- _].
  - apply IH. lia.
Qed.

(** So a dispatch that returns normally has joined all its sub-cycles. *)
Lemma concurrent_forward_joins fwd v v' :
  concurrent_forward fwd v = Ok tt v' →
  gather_loop
    (S (longest (fwd <$> seq 0 (num_concurrent_forwards (cfg v)))))
    (fwd <$> seq 0 (num_concurrent_forwards (cfg v)))
    (with_cycles (S (cycles v)) v) = ([], None, v').
Proof.
  unfold concurrent_forward.
  destruct (gather_loop _ _ _) as [[ts [e|]] v1] eqn:Hg.
  - by destruct (drain _ _ _).
  - intros [= <-]. f_equal. f_equal.
    eapply gather_loop_joins; [|exact Hg]. lia.
Qed.

(** A sub-cycle that fails in its first step fails the whole dispatch. *)
Lemma concurrent_forward_first_fails fwd v kind body :
  0 < num_concurrent_forwards (cfg v) →
  fwd 0 = Raises kind :: body →
  ∃ v', concurrent_forward fwd v = Raise (Exception kind) v'.
Proof.
  intros HK Hfwd. unfold concurrent_forward.
  destruct (num_concurrent_forwards (cfg v)) as [|K]; [lia|].
  cbn [seq fmap list_fmap]. rewrite Hfwd.
  cbn [gather_loop iteration quantum raise].
  destruct (iteration _ _) as [[ts e] v2]. cbn [first_exn].
  destruct (drain _ _ _) as [ts' v3]. by eexists.
Qed.

(** C2 (the code at the failing input).  Two sub-cycles are dispatched; the
    first raises, the second would apply a batch for slot 1.  The dispatch
    raises the exception of the first, the batch of the second is not applied
    (its remainder stays suspended in the stopped loop), although the same
    sub-cycle beside a succeeding one raises the score of slot 1 to 1/5;
    [run_concurrent_forward] logs the exception and the batch is not applied
    either; and in [run] the loop ends after this pass. *)
Theorem concurrent_forward_failure_not_isolated :
  let r := run_until_complete (concurrent_forward one_fails) three_slots in
  (∃ v', r = Raise (Exception "TimeoutError") v') ∧
  scores (final r) = scores three_slots ∧
  pending (final r) = [[Await; UpdateScores [fone] [1]]] ∧
  scores (final (run_until_complete (concurrent_forward none_fails)
                   three_slots)) !! 1 = Some (ratio 1 5) ∧
  (∃ v', run_until_complete (run_concurrent_forward one_fails) three_slots
           = Ok tt v' ∧
         scores v' = scores three_slots) ∧
  (∃ v', run 2 quiet_sync [pass_at (Value 10%Z) one_fails;
                           pass_at (Value 20%Z) none_fails] three_slots
           = Ok Returned v' ∧
         cycles v' = 1 ∧ scores v' = scores three_slots).
Proof.
  cbv zeta. split; [eexists; vm_compute; reflexivity|].
  split; [by_evaluation|]. split; [by_evaluation|]. split; [by_evaluation|].
  split; eexists; (split; [vm_compute; reflexivity|]); [|split]; by_evaluation.
Qed.

(** ** Scheduler: errors *)

Lemma while_true_raises (QUERY_RATE : Z) e rest v ex v' :
  run_pass QUERY_RATE e v = Raise ex v' →
  while_true QUERY_RATE (e :: rest) v = Raise ex v'.
Proof. intros H. cbn [while_true]. unfold bind. by rewrite H. Qed.

(** Whatever passes would follow, [run] returns after the first pass that
    raises an [Exception], with the neuron as that pass left it (two log
    entries apart). *)
Lemma run_returns_on_exception (QUERY_RATE : Z) first e rest v v1 kind v2 :
  (sync first ;; log LInfo "Validator starting" [])%M v = Ok tt v1 →
  run_pass QUERY_RATE e v1 = Raise (Exception kind) v2 →
  ∃ v', run QUERY_RATE first (e :: rest) v = Ok Returned v' ∧
        step v' = step v2 ∧ cycles v' = cycles v2 ∧ scores v' = scores v2.
Proof.
  intros Hstart Hpass. unfold run.
  unfold bind at 1 2. unfold bind at 1 in Hstart.
  destruct (sync first v) as [[] v0|ex v0]; [|done].
  rewrite Hstart. rewrite (while_true_raises _ _ _ _ _ _ Hpass).
  eexists. split; [reflexivity|]. done.
Qed.

(** An error of the telemetry call is caught inside the pass, which goes on
    to the next one. *)
Example run_pass_wandb_error :
  ∃ v', run_pass 2 wandb_fails with_telemetry = Ok Continue v' ∧
        step v' = 1%Z ∧
        (msg <$> filter (λ l, lvl l = LError) (logs v'))
          = ["Failed to log info into wandb!"; "CommError"].
Proof. eexists. split; [vm_compute; reflexivity|]. split; reflexivity. Qed.

(** C1 (the code at the failing input).  Reading the block height raises in
    the first of three passes: [run] logs the error and returns; no later
    pass is executed (the step counter and the count of probe cycles stay 0),
    although the two passes that follow, run on their own, would each have
    dispatched a probe cycle. *)
Theorem run_returns_after_failed_pass :
  let r := run 2 quiet_sync failing_then_due three_slots in
  (∃ v', r = Ok Returned v') ∧
  step (final r) = 0%Z ∧ cycles (final r) = 0 ∧
  (msg <$> logs (final r)) =
    ["Validator starting"; "Error during validation"; "ConnectionError"] ∧
  cycles (final (run 2 quiet_sync (tail failing_then_due) three_slots)) = 2.
Proof.
  cbv zeta. split; [eexists; vm_compute; reflexivity|]. repeat split.
Qed.

(** ** Score store: failure and sign *)

Lemma with_logs_same v : with_logs (logs v) v = v.
Proof. by destruct v. Qed.

Lemma with_scores_same v : with_scores (scores v) v = v.
Proof. by destruct v. Qed.

Lemma scatter_loop_Some_inv index : ∀ out src s,
  scatter_loop out index src = Some s →
  length index ≤ length src ∧ Forall (λ u, u < length out) index.
Proof.
  induction index as [|u index IH]; intros out src s; simpl.
  - intros _. split; [lia|apply Forall_nil_2].
  - destruct src as [|r src]; [done|]. destruct (decide _) as [Hu|]; [|done].
    intros H. apply IH in H as [Hlen Hin]. rewrite length_insert in Hin.
    split; [simpl; lia|]. by apply Forall_cons_2.
Qed.

(** What one call leaves: either the moving average over the scattered
    rewards, or, when [scatter] refuses the batch, the neuron as it was; the
    log apart. *)
Lemma update_scores_outcome rewards uids v :
  match scatter (scores v) uids (sanitize rewards) with
  | Some s =>
      ∃ l, update_scores rewards uids v =
             Ok tt (with_logs l
                      (with_scores
                         (tadd (smul (moving_average_alpha (cfg v)) s)
                            (smul (fsub fone (moving_average_alpha (cfg v)))
                               (scores v))) v))
  | None =>
      ∃ l, update_scores rewards uids v =
             Raise (Exception "RuntimeError") (with_logs l v)
  end.
Proof.
  unfold update_scores, sanitize, bind, log, modify, get, ret, raise.
  destruct (existsb isnan rewards); cbn -[fsub];
    destruct (scatter _ _ _); cbn -[fsub]; try (eexists; reflexivity).
  exists (logs v). by rewrite with_logs_same.
Qed.

Lemma length_update_scores rewards uids v :
  length (scores (final (update_scores rewards uids v))) = length (scores v).
Proof.
  pose proof (update_scores_outcome rewards uids v) as H.
  destruct (scatter _ _ _) as [s|] eqn:Hs; destruct H as [l ->]; [|done].
  cbn [final scores with_logs with_scores].
  apply length_ema_tensor. by apply scatter_loop_length in Hs.
Qed.

(** X1.  [update_scores] returns exactly when the batch has a reward for
    every uid and every uid is a slot of the score vector.  Otherwise it
    raises [RuntimeError], the error of [scatter], and leaves the scores, the
    stored snapshot, [step] and [last_query_block] as they were. *)
Theorem update_scores_fails_iff v rewards uids :
  ((length uids ≤ length rewards ∧
    Forall (λ u, u < length (scores v)) uids) ↔
   ∃ v', update_scores rewards uids v = Ok tt v') ∧
  (∀ e v', update_scores rewards uids v = Raise e v' →
     e = Exception "RuntimeError" ∧ scores v' = scores v ∧
     hotkeys v' = hotkeys v ∧ step v' = step v ∧
     last_query_block v' = last_query_block v).
Proof.
  pose proof (update_scores_outcome rewards uids v) as H.
  destruct (scatter (scores v) uids (sanitize rewards)) as [s|] eqn:Hs;
    destruct H as [l Hrun]; rewrite Hrun.
  - split; [|done]. split; [by eexists|]. intros _.
    apply scatter_loop_Some_inv in Hs. by rewrite length_sanitize in Hs.
  - split.
    + split; [|by intros [? [=]]]. intros [Hlen Hin].
      destruct (scatter_loop_is_Some uids (scores v) (sanitize rewards))
        as [s Hs']; [by rewrite length_sanitize|done|].
      unfold scatter in Hs. congruence.
    + by intros e v' [= <- <-].
Qed.

Lemma Qcmult_nonneg (a b : Qc) : (0 ≤ a → 0 ≤ b → 0 ≤ a * b)%Qc.
Proof.
  intros Ha Hb. rewrite <- (Qcmult_0_r a). by apply Qcmult_le_mono_nonneg_l.
Qed.

Lemma nonneg_ema (a : Qc) x y :
  (0 ≤ a ≤ 1)%Qc → nonneg x → nonneg y → nonneg (ema (Fin a) x y).
Proof.
  intros [Ha0 Ha1] (qx & -> & Hx) (qy & -> & Hy).
  eexists. split; [reflexivity|].
  apply Qcle_minus_iff in Ha1.
  apply Qcplus_nonneg_nonneg; by apply Qcmult_nonneg.
Qed.

Lemma nonneg_no_nan rewards :
  Forall nonneg rewards → sanitize rewards = rewards.
Proof.
  intros H. apply sanitize_no_nan, existsb_isnan_false.
  eapply Forall_impl; [exact H|]. by intros x (q & -> & _).
Qed.

(** X2.  Scores stay non-negative.  When alpha lies in [0, 1] and the
    rewards of a batch and all scores are finite and non-negative, all scores
    are finite and non-negative after [update_scores], whether it returned
    or raised. *)
Theorem update_scores_nonneg (a : Qc) v rewards uids :
  moving_average_alpha (cfg v) = Fin a → (0 ≤ a ≤ 1)%Qc →
  Forall nonneg rewards → Forall nonneg (scores v) →
  Forall nonneg (scores (final (update_scores rewards uids v))).
Proof.
  intros Halpha Ha Hr Hs.
  pose proof (update_scores_outcome rewards uids v) as H.
  rewrite (nonneg_no_nan rewards Hr) in H.
  destruct (scatter (scores v) uids rewards) as [s|] eqn:Hsc;
    destruct H as [l ->]; [|done].
  cbn [final scores with_logs with_scores]. rewrite Halpha.
  assert (Forall nonneg s) as Hin
    by (eapply scatter_loop_Forall; [| |exact Hsc]; done).
  apply Forall_lookup. intros k x. rewrite lookup_ema_tensor.
  destruct (s !! k) as [sx|] eqn:Es; [|done].
  destruct (scores v !! k) as [ox|] eqn:Eo; [|done].
  intros [= <-]. apply nonneg_ema; [done| |].
  - exact (Forall_lookup_1 _ _ _ _ Hin Es).
  - exact (Forall_lookup_1 _ _ _ _ Hs Eo).
Qed.

Lemma update_scores_nonneg_witness :
  Forall nonneg (scores (final (update_scores [ratio 1 2] [1] three_slots))).
Proof.
  apply (update_scores_nonneg (Q2Qc (1 # 5))).
  - reflexivity.
  - split; by_evaluation.
  - apply Forall_cons_2; [|apply Forall_nil_2].
    eexists. split; [reflexivity|]. by_evaluation.
  - repeat (apply Forall_cons_2;
            [eexists; split; [reflexivity|by_evaluation]|]).
    apply Forall_nil_2.
Defined.

(** ** Registry sync: shape of the result *)

(** The zeroing loop changes the scores only, keeps their number, and ends
    normally or with an [IndexError]; every score it leaves is 0 or was
    there. *)
Lemma zero_replaced_shape old : ∀ uid current v,
  ∃ s, (zero_replaced uid old current v = Ok tt (with_scores s v) ∨
        zero_replaced uid old current v
          = Raise (Exception "IndexError") (with_scores s v)) ∧
       length s = length (scores v) ∧
       (∀ P : fp → Prop, P fzero → Forall P (scores v) → Forall P s).
Proof.
  induction old as [|h rest IH]; intros uid current v; cbn [zero_replaced].
  - exists (scores v). rewrite with_scores_same. by split; [left|].
  - destruct (current !! uid) as [h'|].
    2:{ exists (scores v). rewrite with_scores_same. by split; [right|]. }
    unfold bind, when. destruct (bool_decide (h ≠ h')).
    + unfold setitem_scores, bind, get, modify, raise.
      destruct (decide (uid < length (scores v))) as [Hlt|].
      * destruct (IH (S uid) current
                    (with_scores (<[uid:=fzero]> (scores v)) v))
          as (s & Hrun & Hlen & HP).
        exists s. split; [exact Hrun|]. split.
        -- rewrite Hlen. cbn. apply length_insert.
        -- intros P H0 Hall. apply HP; [done|]. cbn.
           by apply Forall_insert.
      * exists (scores v). rewrite with_scores_same. by split; [right|].
    + unfold ret. apply IH.
Qed.

Lemma zero_replaced_short old : ∀ uid current v,
  uid ≤ length current < uid + length old →
  ∃ v', zero_replaced uid old current v = Raise (Exception "IndexError") v'.
Proof.
  induction old as [|h rest IH]; intros uid current v Hlen;
    cbn [zero_replaced length] in *.
  - lia.
  - destruct (current !! uid) as [h'|] eqn:Hcur; [|by eexists].
    apply lookup_lt_Some in Hcur.
    unfold bind, when. destruct (bool_decide (h ≠ h')).
    + unfold setitem_scores, bind, get, modify, raise.
      destruct (decide (uid < length (scores v))); [|by eexists].
      apply IH. lia.
    + unfold ret. apply IH. lia.
Qed.

(** Whatever its outcome, a resync replaces the metagraph by the registry
    read, and otherwise writes only scores, stored snapshot and log. *)
Lemma resync_shape synced v :
  ∃ s h l,
    final (resync_metagraph synced v)
      = with_logs l (with_hotkeys h (with_scores s (with_metagraph synced v))) ∧
    (∀ P : fp → Prop, P fzero → Forall P (scores v) → Forall P s).
Proof.
  unfold resync_metagraph, bind, log, modify, get, ret. cbn.
  destruct (bool_decide (metagraph v = synced)).
  { exists (scores v), (hotkeys v). eexists. split; [reflexivity|done]. }
  match goal with |- context [zero_replaced 0 _ _ ?x] => set (v0 := x) end.
  destruct (zero_replaced_shape (hotkeys v) 0 (metagraph_hotkeys synced) v0)
    as (s & [Hrun|Hrun] & Hlen & HP); rewrite Hrun.
  - cbn. unfold when.
    destruct (bool_decide
                (length (hotkeys v) < length (metagraph_hotkeys synced)));
      cbn.
    + eexists _, _, _. split; [reflexivity|]. intros P H0 Hall.
      apply Forall_app. split.
      * apply Forall_take. by apply HP.
      * apply Forall_drop. unfold zeros. by apply Forall_replicate.
    + eexists _, _, _. split; [reflexivity|]. intros P H0 Hall. by apply HP.
  - cbn. exists s, (hotkeys v). eexists. split; [reflexivity|].
    intros P H0 Hall. by apply HP.
Qed.

Lemma metagraph_resync synced v :
  metagraph (final (resync_metagraph synced v)) = synced.
Proof. by destruct (resync_shape synced v) as (s & h & l & -> & _). Qed.

(** X4.  A registry shorter than the stored snapshot.  When the registry
    read differs from the metagraph held and has fewer entries than
    [self.hotkeys], [resync_metagraph] raises [IndexError] in the zeroing
    loop (line 370).  The metagraph is then already the registry read, the
    stored snapshot is still the old one, and the score vector has kept its
    length. *)
Theorem resync_shrunk_registry_raises v synced :
  metagraph v ≠ synced →
  length synced < length (hotkeys v) →
  ∃ v', resync_metagraph synced v = Raise (Exception "IndexError") v' ∧
        hotkeys v' = hotkeys v ∧ metagraph v' = synced ∧
        length (scores v') = length (scores v).
Proof.
  intros Hne Hlen.
  pose proof (metagraph_resync synced v) as Hm. revert Hm.
  unfold resync_metagraph, bind, log, modify, get, ret. cbn.
  rewrite bool_decide_eq_false_2 by done.
  match goal with |- context [zero_replaced 0 _ _ ?x] => set (v0 := x) end.
  destruct (zero_replaced_short (hotkeys v) 0 (metagraph_hotkeys synced) v0)
    as [v' Hraise].
  { unfold metagraph_hotkeys. rewrite length_fmap. lia. }
  destruct (zero_replaced_shape (hotkeys v) 0 (metagraph_hotkeys synced) v0)
    as (s & [Hrun|Hrun] & Hs & _); [congruence|].
  rewrite Hrun. cbn. intros Hm. eexists. split; [reflexivity|]. cbn.
  split; [done|]. split; [done|]. exact Hs.
Qed.

Lemma resync_shrunk_registry_raises_witness :
  ∃ v', resync_metagraph [axon_of "A"] settled
          = Raise (Exception "IndexError") v' ∧
        hotkeys v' = ["A"; "B"] ∧ metagraph v' = [axon_of "A"].
Proof.
  destruct (resync_shrunk_registry_raises settled [axon_of "A"])
    as (v' & Hrun & Hh & Hm & _).
  - by_evaluation.
  - cbn. lia.
  - exists v'. split; [exact Hrun|]. split; [exact Hh|exact Hm].
Defined.

(** A resync on a registry that has not shrunk returns, and keeps the neuron
    well formed. *)
Lemma resync_well_formed v synced :
  well_formed v →
  length (metagraph v) ≤ length synced →
  ∃ v', resync_metagraph synced v = Ok PyNone v' ∧
        well_formed v' ∧ metagraph v' = synced.
Proof.
  intros [Hhk Hlen] Hgrow.
  assert (length (hotkeys v) = length (metagraph v)) as Hl
    by (rewrite Hhk; unfold metagraph_hotkeys; apply length_fmap).
  destruct (decide (metagraph v = synced)) as [Heq|Hne].
  - unfold resync_metagraph, bind, log, modify, get, ret. cbn.
    rewrite bool_decide_eq_true_2 by done.
    eexists. split; [reflexivity|]. unfold well_formed. cbn.
    by rewrite <- Heq.
  - destruct (resync_changed_run v synced Hne)
      as (v1 & v' & Hrun & Hh & Hs & Hl1 & _); [lia|lia|].
    pose proof (metagraph_resync synced v) as Hm. rewrite Hrun in Hm.
    cbn in Hm. exists v'. split; [exact Hrun|]. split; [|exact Hm].
    split; [by rewrite Hh, Hm|]. rewrite Hs, Hh.
    unfold metagraph_hotkeys, zeros, metagraph_n. rewrite length_fmap.
    destruct (bool_decide (length (hotkeys v) < length synced)) eqn:Hd.
    + apply bool_decide_eq_true in Hd.
      rewrite length_app, length_take, length_drop, length_replicate. lia.
    + apply bool_decide_eq_false in Hd. lia.
Qed.

(** X5.  A neuron is well formed when its stored snapshot is the hotkey
    list of its metagraph and it has one score per slot.  On a registry with
    at least as many entries as the metagraph held, [resync_metagraph] of a
    well-formed neuron returns [None] and leaves it well formed on the
    registry read: the snapshot is the new hotkey list and there is one score
    per entry of the registry. *)
Theorem resync_keeps_well_formed v synced :
  well_formed v →
  length (metagraph v) ≤ length synced →
  ∃ v', resync_metagraph synced v = Ok PyNone v' ∧
        well_formed v' ∧ metagraph v' = synced ∧
        hotkeys v' = metagraph_hotkeys synced ∧
        length (scores v') = length synced.
Proof.
  intros Hwf Hgrow.
  destruct (resync_well_formed v synced Hwf Hgrow) as (v' & Hrun & Hwf' & Hm).
  exists v'. split; [exact Hrun|]. split; [exact Hwf'|]. split; [exact Hm|].
  destruct Hwf' as [Hh Hl]. rewrite Hl, Hh, Hm.
  split; [done|]. unfold metagraph_hotkeys. apply length_fmap.
Qed.

Lemma resync_keeps_well_formed_witness :
  ∃ v', resync_metagraph replaced_and_grown settled = Ok PyNone v' ∧
        well_formed v' ∧ length (scores v') = 3.
Proof.
  destruct (resync_keeps_well_formed settled replaced_and_grown)
    as (v' & Hrun & Hwf & _ & _ & Hl).
  - split; reflexivity.
  - cbn. lia.
  - exists v'. split; [exact Hrun|]. split; [exact Hwf|exact Hl].
Defined.

(** X6.  Resyncing twice on the same registry.  Whatever the first resync
    did, also when it raised, a second resync that reads the same registry
    takes the early return of line 365: it writes its log line and nothing
    else, so scores and stored snapshot stay as the first resync left
    them. *)
Theorem resync_again_returns_early v synced :
  let v1 := final (resync_metagraph synced v) in
  ∃ v2, resync_metagraph synced v1 = Ok PyNone v2 ∧
        scores v2 = scores v1 ∧ hotkeys v2 = hotkeys v1 ∧
        metagraph v2 = synced ∧
        logs v2 = logs v1
                    ++ [{| lvl := LInfo; msg := "resync_metagraph()";
                           data := [] |}].
Proof.
  intros v1. pose proof (metagraph_resync synced v) as Hm. fold v1 in Hm.
  unfold resync_metagraph, bind, log, modify, get, ret. cbn.
  rewrite bool_decide_eq_true_2 by done.
  eexists. split; [reflexivity|]. done.
Qed.

(** X7.  [resync_metagraph] writes only zeros into the score vector.  Every
    property that holds of 0 and of each score before the call holds of each
    score after it, whatever the outcome: finite scores stay finite,
    non-negative scores non-negative. *)
Theorem resync_scores_zero_or_old (P : fp → Prop) v synced :
  P fzero → Forall P (scores v) →
  Forall P (scores (final (resync_metagraph synced v))).
Proof.
  intros H0 Hall. destruct (resync_shape synced v) as (s & h & l & -> & HP).
  cbn. by apply HP.
Qed.

Lemma resync_scores_zero_or_old_witness :
  Forall nonneg (scores (final (resync_metagraph replaced_and_grown settled))).
Proof.
  apply (resync_scores_zero_or_old nonneg settled replaced_and_grown).
  - eexists. split; [reflexivity|by_evaluation].
  - repeat (apply Forall_cons_2;
            [eexists; split; [reflexivity|by_evaluation]|]).
    apply Forall_nil_2.
Defined.

(** ** Weight normalisation: edge cases *)

Local Open Scope Qc_scope.

Lemma fsum_zeros (n : nat) : fsum (zeros n) = fzero.
Proof.
  unfold fsum, zeros. induction n as [|n IH].
  - reflexivity.
  - cbn [replicate foldl].
    replace (fadd fzero fzero) with fzero
      by (unfold fzero; cbn; f_equal; ring).
    exact IH.
Qed.

(** X8.  An all-zero score vector, as [__init__] builds it, gives all-zero
    raw weights at line 312: the norm 0 is clamped to eps, so nothing is
    divided by zero and no NaN appears. *)
Theorem normalize_zeros (n : nat) : normalize (zeros n) = zeros n.
Proof.
  unfold normalize, norm1.
  assert (fabs <$> zeros n = zeros n) as Habs.
  { unfold zeros. by rewrite fmap_replicate. }
  rewrite Habs, fsum_zeros. unfold zeros. rewrite fmap_replicate.
  f_equal.
Qed.

(** X9.  With a NaN among the scores [set_weights] still returns.  It logs
    the warning of line 305, and every raw weight it logs and hands on is
    NaN; the scores themselves are left as they are. *)
Theorem set_weights_nan_scores accepted v :
  NaN ∈ scores v →
  ∃ v', set_weights accepted v = Ok tt v' ∧
        warned "Scores contain NaN values." v' ∧
        {| lvl := LDebug; msg := "raw_weights"; data := raw_weights v |}
          ∈ logs v' ∧
        Forall (λ w, w = NaN) (raw_weights v) ∧
        scores v' = scores v.
Proof.
  intros Hin.
  assert (existsb isnan (scores v) = true) as Hex.
  { apply existsb_exists. exists NaN. by rewrite <- list_elem_of_In. }
  unfold set_weights, bind, get, when, log, modify. rewrite Hex.
  destruct accepted; cbn; (eexists; split; [reflexivity|]); cbn;
    (split; [exists []; set_solver|]); (split; [set_solver|]);
    (split; [by apply normalize_NaN|done]).
Qed.

Lemma set_weights_nan_scores_witness :
  ∃ v', set_weights true nan_scores = Ok tt v' ∧
        warned "Scores contain NaN values." v' ∧
        raw_weights nan_scores = [NaN; NaN].
Proof.
  destruct (set_weights_nan_scores true nan_scores) as (v' & Hrun & Hw & _).
  - by_evaluation.
  - exists v'. split; [exact Hrun|]. split; [exact Hw|reflexivity].
Defined.


Lemma Qcabs_nonneg q : 0 ≤ Qcabs q.
Proof.
  unfold Qcabs. destruct (Qcltb q 0) eqn:E.
  - apply Qcltb_lt in E. apply Qclt_le_weak in E.
    apply Qcopp_le_compat in E. by replace (- 0) with 0 in E by ring.
  - by apply Qcltb_ge in E.
Qed.

Lemma Qcabs_bounds q : - Qcabs q ≤ q ∧ q ≤ Qcabs q.
Proof.
  unfold Qcabs. destruct (Qcltb q 0) eqn:E.
  - apply Qcltb_lt in E. apply Qclt_le_weak in E. split.
    + replace (- - q) with q by ring. apply Qcle_refl.
    + eapply Qcle_trans; [exact E|].
      apply Qcopp_le_compat in E. by replace (- 0) with 0 in E by ring.
  - apply Qcltb_ge in E. split; [|apply Qcle_refl].
    eapply Qcle_trans; [|exact E].
    apply Qcopp_le_compat in E. by replace (- 0) with 0 in E by ring.
Qed.

Lemma finite_list (l : list fp) :
  Forall finite l → ∃ qs : list Qc, l = Fin <$> qs.
Proof.
  induction 1 as [|x l Hx _ [qs ->]]; [by exists []|].
  apply finite_Fin in Hx as [q ->]. by exists (q :: qs).
Qed.

Lemma norm1_Fin (qs : list Qc) :
  norm1 (Fin <$> qs) = Fin (foldl Qcplus 0 (Qcabs <$> qs)).
Proof.
  unfold norm1, fsum, fzero.
  replace (fabs <$> (Fin <$> qs)) with (Fin <$> (Qcabs <$> qs)).
  - apply foldl_fadd_Fin.
  - rewrite <- !list_fmap_compose. by apply list_fmap_ext.
Qed.

Lemma foldl_Qcplus_nonneg (qs : list Qc) : ∀ a,
  0 ≤ a → Forall (λ q, 0 ≤ q) qs → 0 ≤ foldl Qcplus a qs.
Proof.
  induction qs as [|q qs IH]; intros a Ha Hqs; [done|].
  apply Forall_cons in Hqs as [Hq Hqs]. cbn. apply IH; [|done].
  by apply Qcplus_nonneg_nonneg.
Qed.

Lemma foldl_Qcplus_ge (qs : list Qc) : ∀ a,
  Forall (λ q, 0 ≤ q) qs → a ≤ foldl Qcplus a qs.
Proof.
  induction qs as [|q qs IH]; intros a Hqs; [apply Qcle_refl|].
  apply Forall_cons in Hqs as [Hq Hqs]. cbn [foldl].
  eapply Qcle_trans; [|by apply IH].
  rewrite <- (Qcplus_0_r a) at 1.
  by apply Qcplus_le_compat; [apply Qcle_refl|].
Qed.

Lemma foldl_Qcplus_elem (qs : list Qc) : ∀ a q,
  0 ≤ a → Forall (λ q, 0 ≤ q) qs → q ∈ qs → q ≤ foldl Qcplus a qs.
Proof.
  induction qs as [|x qs IH]; intros a q Ha Hqs Hin;
    [by apply elem_of_nil in Hin|].
  apply Forall_cons in Hqs as [Hx Hqs]. cbn [foldl].
  apply elem_of_cons in Hin as [->|Hin].
  - eapply Qcle_trans; [|by apply foldl_Qcplus_ge].
    rewrite <- (Qcplus_0_l x) at 1.
    by apply Qcplus_le_compat; [|apply Qcle_refl].
  - apply IH; [|done|done]. by apply Qcplus_nonneg_nonneg.
Qed.

(** The normalisation of finite scores divides each of them by one positive
    number, which is at least the absolute value of every score. *)
Lemma normalize_Fin (qs : list Qc) :
  ∃ d : Qc, 0 < d ∧ (∀ q, q ∈ qs → Qcabs q ≤ d) ∧
    normalize (Fin <$> qs) = Fin <$> ((λ q, q / d) <$> qs).
Proof.
  set (n := foldl Qcplus 0 (Qcabs <$> qs)).
  assert (Forall (λ q, 0 ≤ q) (Qcabs <$> qs)) as Habs
    by (apply Forall_fmap, Forall_true; intros q; apply Qcabs_nonneg).
  assert (0 ≤ n) as Hn by (by apply foldl_Qcplus_nonneg).
  set (d := if Qcltb n normalize_eps then normalize_eps else n).
  assert (0 < d ∧ n ≤ d) as [Hd Hnd].
  { unfold d. destruct (Qcltb n normalize_eps) eqn:E.
    - apply Qcltb_lt in E. split; [apply normalize_eps_pos|].
      by apply Qclt_le_weak.
    - apply Qcltb_ge in E. split; [|done].
      eapply Qclt_le_trans; [apply normalize_eps_pos|done]. }
  exists d. split; [exact Hd|]. split.
  - intros q Hq. eapply Qcle_trans; [|exact Hnd].
    apply foldl_Qcplus_elem; [done|done|]. by apply list_elem_of_fmap_2.
  - unfold normalize. rewrite norm1_Fin. fold n. cbn [clamp_min]. fold d.
    rewrite <- !list_fmap_compose. apply list_fmap_ext. intros _ q _. cbn.
    by apply Qcltb_lt in Hd as ->.
Qed.

(** X10.  For finite scores the raw weights of line 312 are as many as the
    scores, each of them is finite and lies between -1 and 1, and the weight
    of a slot with score 0 is 0: every score is divided by the norm, which is
    positive and at least its absolute value. *)
Theorem normalize_within_unit (sc : list fp) :
  Forall finite sc →
  length (normalize sc) = length sc ∧
  Forall (within (-1) 1) (normalize sc) ∧
  (∀ k : nat, sc !! k = Some fzero → normalize sc !! k = Some fzero).
Proof.
  intros Hfin. destruct (finite_list sc Hfin) as [qs ->].
  destruct (normalize_Fin qs) as (d & Hd & Hle & ->).
  assert (d ≠ 0) as Hd0 by (intros ->; by apply Qclt_not_eq in Hd).
  split; [by rewrite !length_fmap|]. split.
  - apply Forall_fmap, Forall_fmap, Forall_forall. intros q Hq. cbn.
    eexists. split; [reflexivity|].
    destruct (Qcabs_bounds q) as [Hlo Hhi]. specialize (Hle q Hq).
    split; apply (Qcmult_lt_0_le_reg_r _ _ d Hd);
      replace (q / d * d) with q by (by field).
    + replace (-1 * d) with (- d) by ring.
      eapply Qcle_trans; [|exact Hlo]. by apply Qcopp_le_compat.
    + rewrite Qcmult_1_l. by eapply Qcle_trans.
  - intros k. rewrite !list_lookup_fmap.
    destruct (qs !! k) as [q|]; [|done]. cbn. intros [= ->].
    unfold fzero. do 2 f_equal. by field.
Qed.

Lemma normalize_within_unit_witness :
  length (raw_weights signed_scores) = 2%nat ∧
  Forall (within (-1) 1) (raw_weights signed_scores).
Proof.
  destruct (normalize_within_unit (scores signed_scores)) as (Hl & Hw & _).
  - repeat (apply Forall_cons_2; [reflexivity|]). apply Forall_nil_2.
  - split; [exact Hl|exact Hw].
Defined.

Close Scope Qc_scope.

(** ** State persistence: what is written and what is read *)

Lemma state_path_inj v1 v2 :
  state_path v1 = state_path v2 → full_path (cfg v1) = full_path (cfg v2).
Proof.
  unfold state_path. generalize "/state.pt"%string as s.
  generalize (full_path (cfg v1)) as a, (full_path (cfg v2)) as b.
  intros a b s H.
  apply (f_equal String.list_ascii_of_string) in H.
  assert (∀ x y, String.list_ascii_of_string (x +:+ y)
                 = String.list_ascii_of_string x
                     ++ String.list_ascii_of_string y) as Happ.
  { induction x as [|c x IH]; intros y; [done|].
    change (String c x +:+ y) with (String c (x +:+ y)).
    cbn [String.list_ascii_of_string]. by rewrite IH. }
  rewrite !Happ in H. apply app_inv_tail in H.
  rewrite <- (String.string_of_list_ascii_of_string a),
    <- (String.string_of_list_ascii_of_string b). by rewrite H.
Qed.

(** X12.  Loading and saving again.  When a checkpoint is stored at the
    neuron's path, [load_state] followed by [save_state] returns and leaves
    the blob store exactly as it was; the neuron then holds the values of the
    checkpoint. *)
Theorem load_then_save_same_store v ck :
  files v !! state_path v = Some ck →
  ∃ v', (load_state ;; save_state) v = Ok tt v' ∧ files v' = files v ∧
        step v' = ck_step ck ∧ scores v' = ck_scores ck ∧
        hotkeys v' = ck_hotkeys ck ∧
        last_query_block v' = ck_last_query_block ck.
Proof.
  intros Hck. unfold load_state, save_state, bind, log, modify, get.
  change (files (with_logs ?l v)) with (files v).
  change (state_path (with_logs ?l v)) with (state_path v).
  rewrite Hck. eexists. split; [reflexivity|].
  cbn [files with_files with_logs with_step with_scores with_hotkeys
       with_last_query_block step scores hotkeys last_query_block].
  split; [|done]. destruct ck. by apply insert_id.
Qed.

Lemma load_then_save_same_store_witness :
  ∃ v', (load_state ;; save_state) restarted = Ok tt v' ∧
        files v' = files restarted ∧ step v' = 7%Z.
Proof.
  destruct (load_then_save_same_store restarted
              {| ck_step := 7; ck_scores := [ratio 1 2; ratio 1 4];
                 ck_hotkeys := ["A"; "B"]; ck_last_query_block := 42 |})
    as (v' & Hrun & Hf & Hs & _).
  - vm_compute. reflexivity.
  - exists v'. split; [exact Hrun|]. split; [exact Hf|exact Hs].
Defined.

(** X13.  The checkpoint of another directory is not found.  When the blob
    store was empty before [save_state] ran in one neuron, [load_state] in a
    neuron with a different [full_path] raises [FileNotFoundError] and leaves
    [step], scores, stored snapshot and [last_query_block] alone. *)
Theorem load_state_other_path_fails v v1 :
  files v = ∅ →
  full_path (cfg v1) ≠ full_path (cfg v) →
  files v1 = files (final (save_state v)) →
  ∃ v2, load_state v1 = Raise (Exception "FileNotFoundError") v2 ∧
    step v2 = step v1 ∧ scores v2 = scores v1 ∧ hotkeys v2 = hotkeys v1 ∧
    last_query_block v2 = last_query_block v1.
Proof.
  intros Hempty Hpath Hfiles.
  unfold load_state, bind, log, modify, get.
  change (files (with_logs ?l v1)) with (files v1).
  change (state_path (with_logs ?l v1)) with (state_path v1).
  assert (files v1 !! state_path v1 = None) as ->.
  { rewrite Hfiles. unfold save_state, bind, log, modify, get.
    cbn [final files with_files with_logs].
    rewrite lookup_insert_ne, Hempty; [done|].
    intros H. apply state_path_inj in H. cbn in H. congruence. }
  eexists. split; [reflexivity|]. done.
Qed.

Lemma load_state_other_path_fails_witness :
  ∃ v2, load_state elsewhere = Raise (Exception "FileNotFoundError") v2 ∧
        scores v2 = zeros 2.
Proof.
  destruct (load_state_other_path_fails checkpointed elsewhere)
    as (v2 & Hrun & _ & Hs & _).
  - reflexivity.
  - by_evaluation.
  - reflexivity.
  - exists v2. split; [exact Hrun|exact Hs].
Defined.

(** ** Footprints

    What the methods called in a pass can do to the neuron, for a relation
    between the neuron before and after that is closed under the writes
    they make. *)

Lemma update_scores_footprint rewards uids v :
  ∃ s l, final (update_scores rewards uids v) = with_logs l (with_scores s v) ∧
         length s = length (scores v).
Proof.
  pose proof (length_update_scores rewards uids v) as Hlen.
  pose proof (update_scores_outcome rewards uids v) as H.
  destruct (scatter _ _ _) as [s|]; destruct H as [l Hrun];
    rewrite Hrun in *; cbn [final scores with_logs with_scores] in *.
  - by eexists _, _.
  - exists (scores v), l. by rewrite with_scores_same.
Qed.

Lemma update_scores_returns rewards uids v :
  length uids ≤ length rewards →
  Forall (λ u, u < length (scores v)) uids →
  ∃ v', update_scores rewards uids v = Ok tt v'.
Proof.
  intros Hlen Hin. pose proof (update_scores_outcome rewards uids v) as H.
  destruct (scatter_loop_is_Some uids (scores v) (sanitize rewards))
    as [s Hs]; [by rewrite length_sanitize|done|].
  unfold scatter in H. rewrite Hs in H. destruct H as [l ->]. by eexists.
Qed.

Lemma update_scores_raises rewards uids v e v' :
  update_scores rewards uids v = Raise e v' → e = Exception "RuntimeError".
Proof.
  pose proof (update_scores_outcome rewards uids v) as H.
  destruct (scatter _ _ _) as [s|]; destruct H as [l ->]; [done|].
  by intros [= <- _].
Qed.

Section Footprint.
Context (R : validator → validator → Prop).
Context (R_refl : ∀ v, R v v).
Context (R_trans : ∀ a b c, R a b → R b c → R a c).

Lemma bind_rel {A B} (m : M A) (k : A → M B) v :
  R v (final (m v)) → (∀ a w, R w (final (k a w))) →
  R v (final (bind m k v)).
Proof.
  intros Hm Hk. unfold bind. destruct (m v) as [a v1|e v1]; [|done].
  eapply R_trans; [exact Hm|apply Hk].
Qed.

Lemma try_except_rel {A} (m : M A) (h : string → M A) v :
  R v (final (m v)) → (∀ kind w, R w (final (h kind w))) →
  R v (final (try_except m h v)).
Proof.
  intros Hm Hh. unfold try_except.
  destruct (m v) as [a v1|[| |kind] v1]; try done.
  eapply R_trans; [exact Hm|apply Hh].
Qed.

Lemma when_rel b (m : M unit) v :
  R v (final (m v)) → R v (final (when b m v)).
Proof. destruct b; [done|]. intros _. apply R_refl. Qed.

Lemma call_rel {A} (r : reply A) v : R v (final (call r v)).
Proof. destruct r; apply R_refl. Qed.

Context (R_logs : ∀ x v, R v (with_logs x v)).
Context (R_scores : ∀ s v, length s = length (scores v) → R v (with_scores s v)).

Lemma update_scores_rel rewards uids v :
  R v (final (update_scores rewards uids v)).
Proof.
  destruct (update_scores_footprint rewards uids v) as (s & l & -> & Hlen).
  eapply R_trans; [by apply R_scores|apply R_logs].
Qed.

Lemma quantum_rel a v : R v (final (quantum a v)).
Proof. destruct a; [apply R_refl|apply update_scores_rel|apply R_refl]. Qed.

Lemma iteration_rel tasks : ∀ v, R v (iteration tasks v).2.
Proof.
  induction tasks as [|[|a body] rest IH]; intros v; cbn [iteration];
    [apply R_refl|apply IH|].
  pose proof (quantum_rel a v) as Hq.
  destruct (quantum a v) as [[] v1|e v1]; cbn [final] in Hq;
    specialize (IH v1); destruct (iteration rest v1) as [[ts e'] v2];
    cbn [snd] in *; by eapply R_trans.
Qed.

Lemma gather_loop_rel fuel : ∀ tasks v, R v (gather_loop fuel tasks v).2.
Proof.
  induction fuel as [|fuel IH]; intros [|t tasks] v; try apply R_refl.
  cbn [gather_loop].
  pose proof (iteration_rel (t :: tasks) v) as Hi.
  destruct (iteration (t :: tasks) v) as [[ts [e|]] v1]; cbn [snd] in *;
    [done|].
  eapply R_trans; [exact Hi|apply IH].
Qed.

Lemma drain_rel n : ∀ tasks v, R v (drain n tasks v).2.
Proof.
  induction n as [|n IH]; intros tasks v; [apply R_refl|]. cbn [drain].
  pose proof (iteration_rel tasks v) as Hi.
  destruct (iteration tasks v) as [[ts e] v1]; cbn [snd] in *.
  eapply R_trans; [exact Hi|apply IH].
Qed.

Context (R_cycles : ∀ x v, R v (with_cycles x v)).
Context (R_pending : ∀ x v, R v (with_pending x v)).

Lemma concurrent_forward_rel fwd v : R v (final (concurrent_forward fwd v)).
Proof.
  unfold concurrent_forward.
  match goal with |- context [gather_loop ?n ?ts ?w] =>
    pose proof (gather_loop_rel n ts w) as Hg;
    destruct (gather_loop n ts w) as [[ts1 [e|]] v1] end;
    cbn [snd final] in *.
  - pose proof (drain_rel wakeup_latency ts1 v1) as Hd.
    destruct (drain wakeup_latency ts1 v1) as [ts2 v2]; cbn [snd final] in *.
    eapply R_trans; [apply R_cycles|].
    eapply R_trans; [exact Hg|]. eapply R_trans; [exact Hd|apply R_pending].
  - eapply R_trans; [apply R_cycles|exact Hg].
Qed.

Lemma run_until_complete_rel {A} (m : M A) v :
  R v (final (m v)) → R v (final (run_until_complete m v)).
Proof.
  intros Hm. unfold run_until_complete.
  match goal with |- context [drain 1 ?ts ?w] =>
    pose proof (drain_rel 1 ts w) as Hd;
    destruct (drain 1 ts w) as [ts1 v1] end.
  cbn [snd] in Hd.
  assert (R v (with_pending (pending v1 ++ ts1) v1)) as H.
  { eapply R_trans; [exact Hm|]. eapply R_trans; [apply R_pending|].
    eapply R_trans; [exact Hd|apply R_pending]. }
  by destruct (m v).
Qed.

Lemma dispatch_rel e v :
  R v (final (dispatch e v)).
Proof.
  unfold dispatch, bind, get. destruct (organic (cfg v)).
  - apply concurrent_forward_rel.
  - apply run_until_complete_rel, concurrent_forward_rel.
Qed.

Context (R_resync : ∀ synced v, R v (final (resync_metagraph synced v))).
Context (R_files : ∀ x v, R v (with_files x v)).

Lemma set_weights_rel accepted v : R v (final (set_weights accepted v)).
Proof.
  unfold set_weights, bind, get, when, log, modify, ret.
  destruct (existsb isnan (scores v)), accepted; cbn [final];
    repeat (eapply R_trans; [|apply R_logs]); apply R_refl.
Qed.

Lemma save_state_rel v : R v (final (save_state v)).
Proof.
  unfold save_state, bind, get, log, modify. cbn [final].
  eapply R_trans; [apply R_logs|apply R_files].
Qed.

Lemma sync_rel e v : R v (final (sync e v)).
Proof.
  unfold sync. destruct (sync_fails e); [apply R_refl|].
  apply bind_rel.
  { destruct (registry e) as [synced|]; [|apply R_refl].
    apply bind_rel; [apply R_resync|]. intros; apply R_refl. }
  intros _ w. apply bind_rel.
  { destruct (weights_reply e); [apply set_weights_rel|apply R_refl]. }
  intros _ w'. apply when_rel, save_state_rel.
Qed.

Context (R_count : ∀ x v, R v (with_wandb_run_log_count x v)).

Lemma log_to_wandb_rel e v : R v (final (log_to_wandb e v)).
Proof.
  unfold log_to_wandb.
  apply bind_rel; [apply R_logs|]. intros _ w.
  apply bind_rel.
  { apply try_except_rel.
    - apply bind_rel; [apply R_refl|]. intros w0 w1.
      apply bind_rel; [apply call_rel|]. intros _ w2.
      apply bind_rel; [apply R_count|]. intros _ w3. apply R_logs.
    - intros kind w0. apply bind_rel; [apply R_logs|].
      intros _ w1. apply R_logs. }
  intros _ w0. apply bind_rel; [apply call_rel|]. intros due w1.
  apply when_rel, try_except_rel.
  - apply bind_rel; [apply call_rel|]. intros _ w2. apply R_count.
  - intros kind w2. apply bind_rel; [apply R_logs|].
    intros _ w3. apply R_logs.
Qed.

Context (R_block : ∀ x v, R v (with_last_query_block x v)).

(** The part of a pass behind the probe gate. *)
Lemma probe_and_sync_rel (b : Z) (e : pass_env) (w : bool) v :
  R v (final ((log LInfo "step block" [] ;;
               dispatch e ;;
               modify (with_last_query_block b) ;;
               sync (sync_of e) ;;
               when w (log_to_wandb e)) v)).
Proof.
  apply bind_rel; [apply R_logs|]. intros _ w0.
  apply bind_rel; [apply dispatch_rel|]. intros _ w1.
  apply bind_rel; [apply R_block|]. intros _ w2.
  apply bind_rel; [apply sync_rel|]. intros _ w3.
  apply when_rel, log_to_wandb_rel.
Qed.

End Footprint.

(** ** Probe dispatcher: what a cycle can and cannot do *)

Lemma quantum_raises a v e v' :
  quantum a v = Raise e v' → ∃ kind, e = Exception kind.
Proof.
  destruct a as [|rewards uids|kind]; cbn [quantum]; [done| |].
  - intros H. apply update_scores_raises in H. by eexists.
  - intros [= <- _]. by eexists.
Qed.

Lemma iteration_raises tasks : ∀ v e,
  (iteration tasks v).1.2 = Some e → ∃ kind, e = Exception kind.
Proof.
  induction tasks as [|[|a body] rest IH]; intros v e; cbn [iteration];
    [done|apply IH|].
  pose proof (quantum_raises a v) as Hq.
  destruct (quantum a v) as [[] v1|e1 v1]; specialize (IH v1);
    destruct (iteration rest v1) as [[ts e'] v2]; cbn [fst snd] in *.
  - apply IH.
  - intros [= <-]. by eapply Hq.
Qed.

Lemma gather_loop_raises fuel : ∀ tasks v e,
  (gather_loop fuel tasks v).1.2 = Some e → ∃ kind, e = Exception kind.
Proof.
  induction fuel as [|fuel IH]; intros [|t tasks] v e; try done.
  cbn [gather_loop].
  pose proof (iteration_raises (t :: tasks) v) as Hi.
  destruct (iteration (t :: tasks) v) as [[ts [e1|]] v1]; cbn [fst snd] in *.
  - intros [= <-]. by apply Hi.
  - apply IH.
Qed.

Lemma concurrent_forward_raises fwd v e v' :
  concurrent_forward fwd v = Raise e v' → ∃ kind, e = Exception kind.
Proof.
  unfold concurrent_forward.
  match goal with |- context [gather_loop ?n ?ts ?w] =>
    pose proof (gather_loop_raises n ts w) as Hg;
    destruct (gather_loop n ts w) as [[ts1 [e1|]] v1] end;
    cbn [fst snd] in *; [|done].
  destruct (drain _ _ _) as [ts2 v2]. intros [= <- _]. by apply Hg.
Qed.

(** X14.  [run_concurrent_forward] contains the failures of the
    sub-cycles.  Whatever [Exception] a sub-cycle raises, it returns; when
    [concurrent_forward] returned, the neuron is as that left it, and when it
    raised, one error line has been added to the log and nothing else. *)
Theorem run_concurrent_forward_returns fwd v :
  ∃ v', run_concurrent_forward fwd v = Ok tt v' ∧
    match concurrent_forward fwd v with
    | Ok _ v1 => v' = v1
    | Raise _ v1 =>
        v' = with_logs
               (logs v1 ++ [{| lvl := LError;
                               msg := "Error in concurrent_forward";
                               data := [] |}]) v1
    end.
Proof.
  unfold run_concurrent_forward, try_except.
  pose proof (concurrent_forward_raises fwd v) as Hr.
  destruct (concurrent_forward fwd v) as [[] v1|e v1]; [by eexists|].
  destruct (Hr e v1 eq_refl) as [kind ->]. by eexists.
Qed.

Lemma update_scores_applied rewards uids v v' :
  update_scores rewards uids v = Ok tt v' → applied v' = S (applied v).
Proof.
  unfold update_scores, bind, log, modify, get, ret, raise.
  destruct (existsb isnan rewards); cbn -[fsub];
    destruct (scatter _ _ _) as [s|]; cbn -[fsub]; try done;
    intros [= <-]; unfold applied; cbn [logs with_logs with_scores];
    rewrite !filter_app, !length_app, !filter_cons, !filter_nil; cbn [msg];
    repeat case_decide; try done; cbn [length]; lia.
Qed.

Lemma batches_cons t tasks :
  batches (t :: tasks) = batches_of t + batches tasks.
Proof. reflexivity. Qed.

Lemma quantum_harmless a body v :
  harmless (length (scores v)) a →
  ∃ v', quantum a v = Ok tt v' ∧ length (scores v') = length (scores v) ∧
        applied v' + batches_of body = applied v + batches_of (a :: body).
Proof.
  destruct a as [|rewards uids|kind]; cbn [quantum harmless batches_of];
    [by eexists| |done].
  intros [Hlen Hin]. pose proof (length_update_scores rewards uids v) as Hl.
  destruct (update_scores_returns rewards uids v Hlen Hin) as [v' Hrun].
  rewrite Hrun in Hl. exists v'. split; [done|]. split; [done|].
  apply update_scores_applied in Hrun. lia.
Qed.

(** One iteration over sub-cycles that cannot fail: nothing is raised, and
    every batch is either applied or still to come. *)
Lemma iteration_harmless n tasks : ∀ v,
  length (scores v) = n → Forall (Forall (harmless n)) tasks →
  (iteration tasks v).1.2 = None ∧
  Forall (Forall (harmless n)) (iteration tasks v).1.1 ∧
  length (scores (iteration tasks v).2) = n ∧
  applied (iteration tasks v).2 + batches (iteration tasks v).1.1
    = applied v + batches tasks.
Proof.
  induction tasks as [|[|a body] rest IH]; intros v Hn Hall;
    cbn [iteration].
  - done.
  - apply Forall_cons in Hall as [_ Hrest].
    destruct (IH v Hn Hrest) as (He & Hts & Hl & Hb).
    by repeat split.
  - apply Forall_cons in Hall as [Ht Hrest].
    apply Forall_cons in Ht as [Ha Hbody].
    rewrite <- Hn in Ha.
    destruct (quantum_harmless a body v Ha) as (v1 & -> & Hl & Hq).
    destruct (IH v1) as (He & Hts & Hlen & Hb); [lia|done|].
    destruct (iteration rest v1) as [[ts e] v2]; cbn [fst snd] in *.
    split; [done|]. split; [|split; [done|]].
    + destruct body; [done|]. by apply Forall_cons_2.
    + destruct body; rewrite !batches_cons;
        try change (batches_of []) with 0 in Hq; lia.
Qed.

Lemma gather_loop_harmless n fuel : ∀ tasks v,
  length (scores v) = n → Forall (Forall (harmless n)) tasks →
  (gather_loop fuel tasks v).1.2 = None ∧
  length (scores (gather_loop fuel tasks v).2) = n ∧
  applied (gather_loop fuel tasks v).2 + batches (gather_loop fuel tasks v).1.1
    = applied v + batches tasks.
Proof.
  induction fuel as [|fuel IH]; intros [|t tasks] v Hn Hall; try done.
  cbn [gather_loop].
  destruct (iteration_harmless n (t :: tasks) v Hn Hall)
    as (He & Hts & Hl & Hb).
  destruct (iteration (t :: tasks) v) as [[ts e] v1]; cbn [fst snd] in *.
  subst e. destruct (IH ts v1 Hl Hts) as (He' & Hl' & Hb').
  split; [done|]. split; [done|]. lia.
Qed.

(** X15.  When no step of any sub-cycle raises, and every batch has a
    reward for each of its uids and only uids inside the score vector,
    [concurrent_forward] returns, and every sub-cycle has been joined: the
    event loop has run until no sub-cycle is left unfinished, and every
    [update_scores] call of every sub-cycle has been made.  Nothing is added
    to the suspended sub-cycles of earlier dispatches, one cycle has been
    counted, and the score vector has kept its length. *)
Theorem concurrent_forward_harmless fwd v :
  Forall (Forall (harmless (length (scores v))))
    (fwd <$> seq 0 (num_concurrent_forwards (cfg v))) →
  ∃ v', concurrent_forward fwd v = Ok tt v' ∧
        gather_loop
          (S (longest (fwd <$> seq 0 (num_concurrent_forwards (cfg v)))))
          (fwd <$> seq 0 (num_concurrent_forwards (cfg v)))
          (with_cycles (S (cycles v)) v) = ([], None, v') ∧
        applied v'
          = applied v
            + batches (fwd <$> seq 0 (num_concurrent_forwards (cfg v))) ∧
        pending v' = pending v ∧ cycles v' = S (cycles v) ∧
        length (scores v') = length (scores v).
Proof.
  intros Hall.
  pose proof (concurrent_forward_frame cycles inert_cycles fwd v) as Hc.
  revert Hc. unfold concurrent_forward.
  match goal with |- context [gather_loop ?n ?ts ?w] =>
    destruct (gather_loop_harmless (length (scores v)) n ts w eq_refl Hall)
      as (He & Hl & Hb);
    pose proof (gather_loop_rel (λ a b, pending b = pending a)
                  (λ _, eq_refl) (λ a b c H1 H2, eq_trans H2 H1)
                  (λ _ _, eq_refl) (λ _ _ _, eq_refl) n ts w) as Hp;
    pose proof (gather_loop_joins n ts w) as Hj;
    destruct (gather_loop n ts w) as [[ts1 e] v1] end.
  cbn [fst snd] in *. subst e. cbn [final]. intros Hc.
  rewrite (Hj ts1 v1) in * by (done || lia).
  exists v1. change (batches []) with 0 in Hb.
  change (applied (with_cycles (S (cycles v)) v)) with (applied v) in Hb.
  repeat split; try done. lia.
Qed.

Lemma concurrent_forward_harmless_witness :
  ∃ v', concurrent_forward none_fails three_slots = Ok tt v' ∧
        applied v' = 2 ∧ pending v' = [] ∧ cycles v' = 1.
Proof.
  destruct (concurrent_forward_harmless none_fails three_slots)
    as (v' & Hrun & _ & Ha & Hp & Hc & _).
  - repeat (apply Forall_cons_2;
            [repeat (apply Forall_cons_2;
                     [cbn; repeat split; try lia;
                      repeat (apply Forall_cons_2; [cbn; lia|]);
                      apply Forall_nil_2|]);
             apply Forall_nil_2|]).
    apply Forall_nil_2.
  - exists v'. split; [exact Hrun|]. split; [exact Ha|].
    split; [exact Hp|exact Hc].
Defined.

Lemma same_registry_refl v : same_registry v v.
Proof. by repeat split. Qed.

Lemma same_registry_trans a b c :
  same_registry a b → same_registry b c → same_registry a c.
Proof.
  unfold same_registry. intros H1 H2.
  destruct H1 as (?&?&?&?&?&?&?&?), H2 as (?&?&?&?&?&?&?&?).
  repeat split; congruence.
Qed.

(** X16.  A probe cycle, in either dispatch mode and whatever its outcome,
    changes neither the length of the score vector nor the stored snapshot,
    the metagraph, [step], [last_query_block], the blob store, the wandb
    counter or the configuration.  So a well-formed neuron is well formed
    after it. *)
Theorem dispatch_same_registry e v :
  same_registry v (final (dispatch e v)) ∧
  (well_formed v → well_formed (final (dispatch e v))).
Proof.
  assert (same_registry v (final (dispatch e v))) as H.
  { apply dispatch_rel.
    - apply same_registry_refl.
    - apply same_registry_trans.
    - by repeat split.
    - by repeat split.
    - by repeat split.
    - by repeat split. }
  split; [exact H|]. destruct H as (Hl & Hh & Hm & _).
  unfold well_formed. rewrite Hl, Hh, Hm. done.
Qed.

(** ** Scheduler: exceptions, step counter and telemetry *)

(** X17.  What leaves [run].  An exception raised by [run] is either the
    one of the first [sync] (line 158 is outside the [try]) or [SystemExit],
    raised by the handler of [KeyboardInterrupt] after the first sync
    returned.  No [Exception] of the loop leaves it.  ([self.axon.stop()] and
    the logging calls are taken to return.) *)
Theorem run_raises_only_exit (QUERY_RATE : Z) first passes v :
  match run QUERY_RATE first passes v with
  | Ok _ _ => True
  | Raise e v' =>
      (e = SystemExit ∧ ∃ v0, sync first v = Ok tt v0) ∨
      sync first v = Raise e v'
  end.
Proof.
  unfold run. unfold bind at 1.
  destruct (sync first v) as [[] v0|e v0]; [|by right].
  unfold bind at 1. unfold log at 1, modify at 1.
  destruct (while_true _ _ _) as [r v1|[| |kind] v1]; cbn; try done;
    left; (split; [done|by eexists]).
Qed.

Lemma step_kept_by_resync synced v :
  step (final (resync_metagraph synced v)) = step v.
Proof. by destruct (resync_shape synced v) as (s & h & l & -> & _). Qed.

Lemma step_kept_by_sync e v : step (final (sync e v)) = step v.
Proof.
  apply (sync_rel (λ a b, step b = step a)); try done.
  - intros a b c H1 H2. congruence.
  - apply step_kept_by_resync.
Qed.

Lemma step_kept_behind_gate b e w v :
  step (final ((log LInfo "step block" [] ;;
                dispatch e ;;
                modify (with_last_query_block b) ;;
                sync (sync_of e) ;;
                when w (log_to_wandb e)) v)) = step v.
Proof.
  apply (probe_and_sync_rel (λ a b, step b = step a)); try done.
  - intros a' b' c H1 H2. congruence.
  - apply step_kept_by_resync.
Qed.

(** One pass: [step] grows by one exactly when the pass goes on to the next;
    a pass ends the loop exactly when [should_exit] is set and nothing was
    raised before it is read. *)
Lemma run_pass_step (QUERY_RATE : Z) e v :
  match run_pass QUERY_RATE e v with
  | Ok Continue v' => step v' = (step v + 1)%Z ∧ should_exit e = false
  | Ok Break v' => step v' = step v ∧ should_exit e = true
  | Raise _ v' => step v' = step v
  end.
Proof.
  unfold run_pass.
  destruct (subtensor_block e) as [b|ex]; cbn [call]; [|done].
  unfold bind at 1. cbn [ret]. unfold bind at 1. cbn [get].
  unfold bind at 1.
  match goal with |- context [when ?c ?m v] =>
    assert (step (final (when c m v)) = step v) as Hb;
      [destruct c; [apply step_kept_behind_gate|done]|];
    destruct (when c m v) as [[] v1|ex v1] end; cbn [final] in Hb; [|done].
  destruct (should_exit e); cbn; [done|]. split; [lia|done].
Qed.

Lemma while_true_step (QUERY_RATE : Z) passes : ∀ v,
  match while_true QUERY_RATE passes v with
  | Ok StillRunning v' =>
      step v' = (step v + Z.of_nat (length passes))%Z ∧
      Forall (λ e, should_exit e = false) passes
  | Ok Returned v' | Raise _ v' =>
      (step v ≤ step v' < step v + Z.of_nat (length passes))%Z
  end.
Proof.
  induction passes as [|e rest IH]; intros v; cbn [while_true].
  - cbn. split; [lia|apply Forall_nil_2].
  - unfold bind. pose proof (run_pass_step QUERY_RATE e v) as Hp.
    destruct (run_pass QUERY_RATE e v) as [[|] v1|ex v1];
      cbn [length]; [|cbn; lia|lia].
    destruct Hp as [Hs He]. specialize (IH v1).
    destruct (while_true QUERY_RATE rest v1) as [[|] v2|ex v2].
    + lia.
    + destruct IH as [IH1 IH2]. split; [lia|by apply Forall_cons_2].
    + lia.
Qed.

(** X18.  [step] counts the completed passes.  When all the given passes
    were executed and the loop is still going, [step] has grown by their
    number and none of them had [should_exit] set.  When [run] returned,
    [step] has grown by less than their number; when it raised, by at most
    their number. *)
Theorem run_step_counts_passes (QUERY_RATE : Z) first passes v :
  match run QUERY_RATE first passes v with
  | Ok StillRunning v' =>
      step v' = (step v + Z.of_nat (length passes))%Z ∧
      Forall (λ e, should_exit e = false) passes
  | Ok Returned v' => (step v ≤ step v' < step v + Z.of_nat (length passes))%Z
  | Raise _ v' => (step v ≤ step v' ≤ step v + Z.of_nat (length passes))%Z
  end.
Proof.
  unfold run. unfold bind at 1.
  pose proof (step_kept_by_sync first v) as Hs.
  destruct (sync first v) as [[] v0|e v0]; cbn [final] in Hs; [|lia].
  unfold bind at 1. unfold log at 1, modify at 1.
  match goal with |- context [while_true _ _ ?w] =>
    pose proof (while_true_step QUERY_RATE passes w) as Hw;
    change (step w) with (step v0) in Hw;
    destruct (while_true QUERY_RATE passes w) as [[|] v1|[| |kind] v1] end;
    cbn; try lia.
  destruct Hw as [Hw1 Hw2]. split; [lia|done].
Qed.

(** X19.  The telemetry block of a pass (lines 180 to 218) returns when
    [wandb.log] and [reinit_wandb] return or raise an [Exception] and
    [should_reinit_wandb] returns.  The log counter is then 0 after a
    rollover that succeeded, otherwise one more than before after a log call
    that succeeded, otherwise unchanged; scores, [step] and
    [last_query_block] are untouched. *)
Theorem log_to_wandb_count e v (due : bool) :
  catchable (wandb_log e) → should_reinit e = Value due →
  catchable (reinit e) →
  ∃ v', log_to_wandb e v = Ok tt v' ∧
    wandb_run_log_count v' =
      (if due && returns (reinit e) then 0
       else if returns (wandb_log e) then wandb_run_log_count v + 1
       else wandb_run_log_count v)%Z ∧
    scores v' = scores v ∧ step v' = step v ∧
    last_query_block v' = last_query_block v.
Proof.
  intros Hlog Hdue Hre.
  unfold log_to_wandb, bind, try_except, when, log, modify, get, ret.
  rewrite Hdue.
  destruct (wandb_log e) as [[]|[| |k]], (reinit e) as [[]|[| |k']], due;
    try done; cbn; (eexists; split; [reflexivity|done]).
Qed.

Lemma log_to_wandb_count_witness :
  ∃ v', log_to_wandb wandb_fails with_telemetry = Ok tt v' ∧
        wandb_run_log_count v' = 0%Z.
Proof.
  destruct (log_to_wandb_count wandb_fails with_telemetry false)
    as (v' & Hrun & Hc & _); [exact I|reflexivity|exact I|].
  exists v'. split; [exact Hrun|exact Hc].
Defined.

(** X20.  [should_reinit_wandb] is called outside both [try] blocks (line
    212): when it raises, its exception leaves the telemetry block, with the
    log counter already incremented if the log call succeeded. *)
Theorem should_reinit_failure_escapes e v ex :
  catchable (wandb_log e) → should_reinit e = Throws ex →
  ∃ v', log_to_wandb e v = Raise ex v' ∧
    wandb_run_log_count v' =
      (if returns (wandb_log e) then wandb_run_log_count v + 1
       else wandb_run_log_count v)%Z.
Proof.
  intros Hlog Hdue.
  unfold log_to_wandb, bind, try_except, when, log, modify, get, ret.
  rewrite Hdue.
  destruct (wandb_log e) as [[]|[| |k]]; try done; cbn;
    (eexists; split; [reflexivity|done]).
Qed.

Lemma should_reinit_failure_escapes_witness :
  ∃ v', log_to_wandb rollover_check_fails with_telemetry
          = Raise (Exception "CommError") v' ∧
        wandb_run_log_count v' = 1%Z.
Proof.
  destruct (should_reinit_failure_escapes rollover_check_fails with_telemetry
              (Exception "CommError")) as (v' & Hrun & Hc);
    [exact I|reflexivity|].
  exists v'. split; [exact Hrun|exact Hc].
Defined.

(** ** Background runner *)

Lemma lifecycle_call_balanced r c :
  balanced r → balanced (lifecycle_call r c).
Proof.
  unfold balanced. intros (Hs & He & Hf).
  destruct c; cbn [lifecycle_call];
    unfold __enter__, __exit__, run_in_background_thread, stop_run_thread;
    destruct (is_running r) eqn:Hr; cbn; rewrite ?Hr;
    try destruct (has_wandb r); repeat split; try done; try lia.
Qed.

(** X21.  After any sequence of [run_in_background_thread],
    [stop_run_thread], [__enter__] and [__exit__] on a freshly constructed
    runner: every thread started has been joined, except the one running;
    [should_exit] is down while [is_running] is set; and [wandb.finish()] has
    been called at most as often as [join]. *)
Theorem lifecycle_balanced (calls : list lifecycle) (wandb : bool) :
  balanced (foldl lifecycle_call (new_runner wandb) calls).
Proof.
  assert (∀ r, balanced r → balanced (foldl lifecycle_call r calls)) as H.
  { induction calls as [|c calls IH]; intros r Hr; [done|].
    cbn [foldl]. by apply IH, lifecycle_call_balanced. }
  apply H. unfold balanced. cbn. repeat split; try done; lia.
Qed.

(** X22.  [__exit__] after [stop_run_thread] does nothing: the wandb run
    is not finished by it.  Stopping twice joins once, and starting twice
    starts one thread. *)
Theorem exit_after_stop_keeps_wandb_open r :
  __exit__ (stop_run_thread r) = stop_run_thread r ∧
  finished (__exit__ (stop_run_thread r)) = finished r ∧
  is_running (stop_run_thread r) = false ∧
  stop_run_thread (stop_run_thread r) = stop_run_thread r ∧
  run_in_background_thread (run_in_background_thread r)
    = run_in_background_thread r.
Proof.
  unfold __exit__, stop_run_thread, run_in_background_thread.
  destruct (is_running r) eqn:Hr; cbn; rewrite ?Hr; done.
Qed.

(** X23.  Entering and leaving the context on a runner that is not
    running: one thread is started and joined, [should_exit] is up, the wandb
    run is finished if there is one, the last log line is
    [Validator killed], and a second [__exit__] changes nothing. *)
Theorem enter_then_exit r :
  is_running r = false →
  let r' := __exit__ (__enter__ r) in
  is_running r' = false ∧ exit_flag r' = true ∧
  started r' = S (started r) ∧ joined r' = S (joined r) ∧
  finished r' = (if has_wandb r then S (finished r) else finished r) ∧
  last (runner_log r') = Some (LSuccess, "Validator killed"%string) ∧
  __exit__ r' = r'.
Proof.
  intros Hr. unfold __exit__, __enter__, run_in_background_thread.
  rewrite Hr. destruct (has_wandb r); cbn; repeat split;
    rewrite !last_app; done.
Qed.

Lemma enter_then_exit_witness :
  let r' := __exit__ (__enter__ (new_runner true)) in
  is_running r' = false ∧ started r' = 1 ∧ joined r' = 1 ∧ finished r' = 1.
Proof.
  destruct (enter_then_exit (new_runner true) eq_refl)
    as (H1 & _ & H2 & H3 & H4 & _).
  cbv zeta. split; [exact H1|]. split; [exact H2|].
  split; [exact H3|exact H4].
Defined.

(** ** Construction *)

Lemma serve_axon_shape create serve v :
  catchable create → catchable serve →
  ∃ l, serve_axon create serve v = Ok tt (with_logs l v).
Proof.
  intros Hc Hs. unfold serve_axon, bind, try_except, log, modify.
  destruct create as [[]|[| |k]], serve as [[]|[| |k']]; try done; cbn;
    by eexists.
Qed.

(** X24.  [serve_axon] contains its failures.  When creating the axon and
    serving it each return or raise an [Exception], [serve_axon] returns and
    adds two lines to the log and nothing else; the second line tells that
    the validator is running, or which of the two steps failed. *)
Theorem serve_axon_contained create serve v :
  catchable create → catchable serve →
  serve_axon create serve v =
    Ok tt
      (with_logs
         (logs v ++
          [{| lvl := LInfo; msg := "serving ip to chain..."; data := [] |};
           if returns create
           then if returns serve
                then {| lvl := LInfo; msg := "Running validator";
                        data := [] |}
                else {| lvl := LError;
                        msg := "Failed to serve Axon with exception";
                        data := [] |}
           else {| lvl := LError;
                   msg := "Failed to create Axon initialize with exception";
                   data := [] |}]) v).
Proof.
  intros Hc Hs. unfold serve_axon, bind, try_except, log, modify.
  destruct create as [[]|[| |k]], serve as [[]|[| |k']]; try done; cbn;
    by rewrite <- app_assoc.
Qed.

Lemma serve_axon_contained_witness :
  ∃ v', serve_axon (Value tt) (Throws (Exception "ConnectionError"))
          three_slots = Ok tt v' ∧
        {| lvl := LError; msg := "Failed to serve Axon with exception";
           data := [] |} ∈ logs v'.
Proof.
  eexists. split.
  - apply (serve_axon_contained (Value tt)
             (Throws (Exception "ConnectionError")) three_slots); exact I.
  - cbn. set_solver.
Defined.

Lemma set_weights_shape accepted v :
  ∃ l, set_weights accepted v = Ok tt (with_logs l v).
Proof.
  unfold set_weights, bind, get, when, log, modify, ret.
  destruct (existsb isnan (scores v)), accepted; cbn; by eexists.
Qed.

Lemma save_state_shape v :
  ∃ l fl, save_state v = Ok tt (with_files fl (with_logs l v)).
Proof. unfold save_state, bind, get, log, modify. by eexists _, _. Qed.

Lemma sync_keeps_counters e v : sync_keeps v (final (sync e v)).
Proof.
  apply (sync_rel sync_keeps).
  - by repeat split.
  - intros a b c (Ea1 & Ea2 & Ea3 & Pa) (Eb1 & Eb2 & Eb3 & Pb).
    repeat split; try congruence. intros P H0 Ha. by apply Pb, Pa.
  - by repeat split.
  - intros synced w.
    destruct (resync_shape synced w) as (s & h & l & -> & HP).
    by repeat split.
  - by repeat split.
Qed.

Lemma sync_well_formed e v :
  well_formed v → sync_fails e = None →
  (∀ synced, registry e = Some synced →
             length (metagraph v) ≤ length synced) →
  ∃ v', sync e v = Ok tt v' ∧ well_formed v'.
Proof.
  intros Hwf Hf Hreg. unfold sync. rewrite Hf.
  assert (∃ v1, match registry e with
                | Some synced => (resync_metagraph synced ;; ret tt)%M
                | None => ret tt
                end v = Ok tt v1 ∧ well_formed v1) as (v1 & Hrun & Hwf1).
  { destruct (registry e) as [synced|]; [|by exists v].
    destruct (resync_well_formed v synced Hwf (Hreg _ eq_refl))
      as (v1 & Hrun & Hwf1 & _).
    exists v1. unfold bind. by rewrite Hrun. }
  unfold bind at 1. rewrite Hrun.
  assert (∃ l, match weights_reply e with
               | Some accepted => set_weights accepted
               | None => ret tt
               end v1 = Ok tt (with_logs l v1)) as [l Hw].
  { destruct (weights_reply e) as [accepted|]; [apply set_weights_shape|].
    exists (logs v1). by rewrite with_logs_same. }
  unfold bind. rewrite Hw. destruct (checkpoint_due e); cbn [when].
  - destruct (save_state_shape (with_logs l v1)) as (l' & fl & ->).
    by eexists.
  - by eexists.
Qed.

(** X25.  Without [WEB3_PROVIDER_URL], [__init__] raises [ValueError]
    (line 70): after the wandb set-up and the copy of the hotkeys, and before
    the scores are built; [last_query_block] and the wandb counter are 0. *)
Theorem init_without_provider_raises e v :
  web3_provider_url e = None →
  wandb_off (cfg v) = true ∨ wandb_init e = Value tt →
  ∃ v', __init__ e v = Raise (Exception "ValueError") v' ∧
        hotkeys v' = metagraph_hotkeys (metagraph v) ∧
        scores v' = scores v ∧ metagraph v' = metagraph v ∧
        last_query_block v' = 0%Z ∧ wandb_run_log_count v' = 0%Z.
Proof.
  intros Hurl Hw. unfold __init__. rewrite Hurl.
  unfold bind, modify, get, when, log, call, ret, raise.
  cbn [cfg with_last_query_block with_wandb_run_log_count].
  destruct Hw as [->| ->]; [|destruct (wandb_off (cfg v))]; cbn;
    by eexists.
Qed.

Lemma init_without_provider_raises_witness :
  ∃ v', __init__ no_provider constructed = Raise (Exception "ValueError") v' ∧
        hotkeys v' = ["A"; "B"] ∧ scores v' = [].
Proof.
  destruct (init_without_provider_raises no_provider constructed)
    as (v' & Hrun & Hh & Hs & _); [reflexivity|by left|].
  exists v'. split; [exact Hrun|]. split; [exact Hh|exact Hs].
Defined.

(** X26.  When [WEB3_PROVIDER_URL] is set, the wandb set-up returns or is
    off, the first sync does not fail and reads no registry shorter than the
    metagraph, and the axon is off or its failures are [Exception]s:
    [__init__] returns, and the neuron is well formed, with every score 0,
    [last_query_block] 0, the wandb counter 0 and [step] as the base class
    left it. *)
Theorem init_establishes e v url :
  web3_provider_url e = Some url →
  wandb_off (cfg v) = true ∨ wandb_init e = Value tt →
  sync_fails (init_sync e) = None →
  (∀ synced, registry (init_sync e) = Some synced →
             length (metagraph v) ≤ length synced) →
  axon_off e = true ∨ catchable (axon_create e) ∧ catchable (axon_serve e) →
  ∃ v', __init__ e v = Ok tt v' ∧ well_formed v' ∧
        Forall (λ x, x = fzero) (scores v') ∧
        last_query_block v' = 0%Z ∧ wandb_run_log_count v' = 0%Z ∧
        step v' = step v.
Proof.
  intros Hurl Hw Hf Hreg Haxon. unfold __init__. rewrite Hurl.
  assert (∃ l, ∀ k : M unit,
    (modify (with_last_query_block 0) ;;
     modify (with_wandb_run_log_count 0) ;;
     v0 <- get ;
     when (negb (wandb_off (cfg v0)))
       (log LDebug "loading wandb" [] ;; call (wandb_init e)) ;;
     modify (with_hotkeys (metagraph_hotkeys (metagraph v0))) ;;
     log LInfo "Dendrite" [] ;;
     log LInfo "Building validation weights." [] ;;
     modify (with_scores (zeros (metagraph_n (metagraph v0)))) ;;
     k) v
    = k (with_scores (zeros (metagraph_n (metagraph v)))
           (with_logs l
              (with_hotkeys (metagraph_hotkeys (metagraph v))
                 (with_wandb_run_log_count 0
                    (with_last_query_block 0 v)))))) as [l Hpre].
  { unfold bind, modify, get, when, log, call, ret.
    cbn [cfg with_last_query_block with_wandb_run_log_count].
    destruct Hw as [->| ->]; [|destruct (wandb_off (cfg v))]; cbn;
      by eexists. }
  rewrite Hpre. clear Hpre.
  set (v3 := with_scores _ _).
  assert (well_formed v3) as Hwf3.
  { split; [done|]. cbn. unfold zeros, metagraph_n, metagraph_hotkeys.
    by rewrite length_replicate, length_fmap. }
  destruct (sync_well_formed (init_sync e) v3 Hwf3 Hf Hreg)
    as (v4 & Hsync & Hwf4).
  pose proof (sync_keeps_counters (init_sync e) v3) as (Hb & Hc & Hs & HP).
  rewrite Hsync in Hb, Hc, Hs, HP. cbn [final] in Hb, Hc, Hs, HP.
  assert (∃ l', (if axon_off e
                 then log LWarning "axon off, not serving ip to chain." []
                 else serve_axon (axon_create e) (axon_serve e)) v4
                = Ok tt (with_logs l' v4)) as [l' Hserve].
  { destruct Haxon as [->|[H1 H2]].
    - by eexists.
    - destruct (axon_off e); [by eexists|by apply serve_axon_shape]. }
  exists (with_logs l' v4). unfold bind. rewrite Hsync.
  split; [exact Hserve|]. split; [exact Hwf4|]. split.
  - apply (HP (λ x, x = fzero)); [done|].
    unfold v3, zeros. cbn. by apply Forall_replicate.
  - done.
Qed.

Lemma init_establishes_witness :
  ∃ v', __init__ first_start constructed = Ok tt v' ∧ well_formed v' ∧
        scores v' = zeros 3 ∧ hotkeys v' = ["A"; "B"; "C"].
Proof.
  destruct (init_establishes first_start constructed "http://127.0.0.1:8545")
    as (v' & Hrun & Hwf & _).
  - reflexivity.
  - by left.
  - reflexivity.
  - intros synced [= <-]. cbn. lia.
  - right. split; exact I.
  - exists v'. split; [exact Hrun|]. split; [exact Hwf|].
    assert (v' = final (__init__ first_start constructed)) as ->
      by (by rewrite Hrun).
    split; by_evaluation.
Defined.
